(** * Dream Weaver AI: the view controller of [src/App.tsx]

  The repository is a React front end.  Everything that decides its
  behaviour lives in the [App] component: six pieces of [useState]
  state, one [useRef] cell, the module-level speech-recognition handle
  and four handlers ([resetState], [handleStartRecording] with the
  [recognition.onresult] closure it installs, [handleStopRecording] and
  [handleSendMessage]).

  A [World] holds the component state, the module-level [recognition]
  handle and a chronological trace of every operation a handler
  performs (state setters, writes to the ref, calls on the recognition
  object, calls to the two remote services).  A synchronous handler is
  a function [World -> World]; an [async] handler runs up to its
  [await] and returns the pending request together with the
  continuation that runs once the promise settles.

  A state setter is modelled by its effect on the state of the next
  render.  No handler reads a state variable after setting it: the only
  state variables read at all are [dreamData] and [chatHistory] in
  [handleSendMessage], which reads the values of the render that
  created the closure, and these are an explicit argument.  The ref
  [finalTranscriptRef] and the module-level [recognition] are read
  where the handler reads them. *)

From Stdlib Require Import String Ascii List NArith Bool Arith Lia.
Import ListNotations.

(** ** JavaScript strings

  A JavaScript string is a sequence of UTF-16 code units; [s.length]
  counts code units and [+] concatenates. *)

Module JS.

Definition jsstring : Type := list N.

(** An ASCII literal of the source as a sequence of code units. *)
Definition lit (s : string) : jsstring :=
  map N_of_ascii (list_ascii_of_string s).

(** [String.prototype.trim] removes WhiteSpace and LineTerminator code
    points from both ends: TAB, VT, FF, SP, NBSP, ZWNBSP, the Unicode
    category Zs, and LF, CR, LS, PS.  All of them are in the Basic
    Multilingual Plane, i.e. one code unit each. *)
Definition isWhiteSpace (c : N) : bool :=
  (existsb (N.eqb c)
     [9; 10; 11; 12; 13; 32; 160; 5760; 8232; 8233; 8239; 8287; 12288; 65279]
   || ((8192 <=? c) && (c <=? 8202)))%N.

Fixpoint trimStart (s : jsstring) : jsstring :=
  match s with
  | c :: s' => if isWhiteSpace c then trimStart s' else s
  | [] => []
  end.

Definition trimEnd (s : jsstring) : jsstring := rev (trimStart (rev s)).

Definition trim (s : jsstring) : jsstring := trimEnd (trimStart s).

End JS.

Import JS.

(** ** [types.ts] *)

Module Types.

Inductive DreamState : Type :=
| IDLE
| RECORDING
| ANALYZING
| COMPLETE
| ERROR.

Inductive Role : Type := user | model.

Record ChatMessage : Type := mkChatMessage {
  role : Role;
  text : jsstring
}.

Record DreamData : Type := mkDreamData {
  transcript : jsstring;
  imageUrl : jsstring;
  interpretation : jsstring
}.

End Types.

Import Types.

(** ** The two collaborators the component calls *)

Module Services.

(** Modelled from the spec: the module [services/geminiService] is not
    part of the sources; section 6 gives the response of the analysis
    service as an object with exactly the two string fields
    [interpretation] and [imageUrl], and the chat reply as a string. *)
Record AnalysisResult : Type := mkAnalysisResult {
  result_interpretation : jsstring;
  result_imageUrl : jsstring
}.

(** How a promise settles: fulfilled with a value, or rejected with a
    reason (the [e] of a [catch (e)]). *)
Inductive Outcome (A : Type) : Type :=
| Resolved (a : A)
| Rejected (e : jsstring).

Arguments Resolved {A} a.
Arguments Rejected {A} e.

Record Services : Type := mkServices {
  generateDreamAnalysis : jsstring -> Outcome AnalysisResult;
  getChatResponse :
    jsstring -> jsstring -> list ChatMessage -> Outcome jsstring
}.

End Services.

Import Services.

(** ** The speech-recognition boundary *)

Module Speech.

(** [event.results[i]]: the handler reads [event.results[i][0].transcript]
    and [event.results[i].isFinal], nothing else. *)
Record SpeechRecognitionResult : Type := mkResult {
  transcript0 : jsstring;
  isFinal : bool
}.

Record SpeechRecognitionEvent : Type := mkEvent {
  resultIndex : nat;
  results : list SpeechRecognitionResult
}.

(** The only closure the program ever stores in [recognition.onresult]
    is the one written in [handleStartRecording]; the slot is modelled
    by naming that closure. *)
Inductive ResultHandler : Type := AppOnResult.

Record Recognition : Type := mkRecognition {
  continuous : bool;
  interimResults : bool;
  onresult : option ResultHandler;
  listening : bool
}.

(** Module initialisation, lines 11-17: the handle exists exactly when
    the browser offers [SpeechRecognition] or [webkitSpeechRecognition]. *)
Definition newRecognition (supported : bool) : option Recognition :=
  if supported
  then Some {| continuous := true; interimResults := true;
               onresult := None; listening := false |}
  else None.

End Speech.

Import Speech.

(** ** The component *)

Module App.

Record AppState : Type := mkAppState {
  dreamState : DreamState;
  dreamData : option DreamData;
  chatHistory : list ChatMessage;
  isChatLoading : bool;
  error : option jsstring;
  transcript : jsstring;
  finalTranscriptRef : jsstring
}.

(** Every operation a handler performs, in the order it performs it. *)
Inductive Op : Type :=
| SetDreamState (s : DreamState)
| SetDreamData (d : option DreamData)
| SetChatHistory (h : list ChatMessage)
| SetIsChatLoading (b : bool)
| SetError (e : option jsstring)
| SetTranscript (s : jsstring)
| WriteFinalTranscriptRef (s : jsstring)
| AssignOnresult (h : ResultHandler)
| RecognitionStart
| RecognitionStop
| ConsoleError (e : jsstring)
| CallGenerateDreamAnalysis (finalTranscript : jsstring)
| CallGetChatResponse (t i : jsstring) (h : list ChatMessage).

Record World : Type := mkWorld {
  app : AppState;
  recognition : option Recognition;
  trace : list Op
}.

(** The first render, lines 20-27. *)
Definition initialState : AppState :=
  {| dreamState := IDLE; dreamData := None; chatHistory := [];
     isChatLoading := false; error := None; transcript := [];
     finalTranscriptRef := [] |}.

Definition initialWorld (supported : bool) : World :=
  {| app := initialState; recognition := newRecognition supported;
     trace := [] |}.

(** *** Primitive operations *)

Definition Cmd : Type := World -> World.

Definition seq (c1 c2 : Cmd) : Cmd := fun w => c2 (c1 w).

Definition emit (o : Op) : Cmd := fun w =>
  {| app := app w; recognition := recognition w; trace := trace w ++ [o] |}.

Definition updApp (f : AppState -> AppState) : Cmd := fun w =>
  {| app := f (app w); recognition := recognition w; trace := trace w |}.

Definition updRecognition (f : Recognition -> Recognition) : Cmd := fun w =>
  {| app := app w; recognition := option_map f (recognition w);
     trace := trace w |}.

Definition setDreamState (s : DreamState) : Cmd :=
  seq (updApp (fun a =>
         mkAppState s (dreamData a) (chatHistory a) (isChatLoading a)
           (error a) (transcript a) (finalTranscriptRef a)))
      (emit (SetDreamState s)).

Definition setDreamData (d : option DreamData) : Cmd :=
  seq (updApp (fun a =>
         mkAppState (dreamState a) d (chatHistory a) (isChatLoading a)
           (error a) (transcript a) (finalTranscriptRef a)))
      (emit (SetDreamData d)).

Definition setChatHistory (h : list ChatMessage) : Cmd :=
  seq (updApp (fun a =>
         mkAppState (dreamState a) (dreamData a) h (isChatLoading a)
           (error a) (transcript a) (finalTranscriptRef a)))
      (emit (SetChatHistory h)).

Definition setIsChatLoading (b : bool) : Cmd :=
  seq (updApp (fun a =>
         mkAppState (dreamState a) (dreamData a) (chatHistory a) b
           (error a) (transcript a) (finalTranscriptRef a)))
      (emit (SetIsChatLoading b)).

Definition setError (e : option jsstring) : Cmd :=
  seq (updApp (fun a =>
         mkAppState (dreamState a) (dreamData a) (chatHistory a)
           (isChatLoading a) e (transcript a) (finalTranscriptRef a)))
      (emit (SetError e)).

Definition setTranscript (s : jsstring) : Cmd :=
  seq (updApp (fun a =>
         mkAppState (dreamState a) (dreamData a) (chatHistory a)
           (isChatLoading a) (error a) s (finalTranscriptRef a)))
      (emit (SetTranscript s)).

(** [finalTranscriptRef.current = s] *)
Definition writeFinalTranscriptRef (s : jsstring) : Cmd :=
  seq (updApp (fun a =>
         mkAppState (dreamState a) (dreamData a) (chatHistory a)
           (isChatLoading a) (error a) (transcript a) s))
      (emit (WriteFinalTranscriptRef s)).

(** [recognition.onresult = h] *)
Definition assignOnresult (h : ResultHandler) : Cmd :=
  seq (updRecognition (fun r =>
         mkRecognition (continuous r) (interimResults r) (Some h)
           (listening r)))
      (emit (AssignOnresult h)).

(** [recognition.start()] *)
Definition recognitionStart : Cmd :=
  seq (updRecognition (fun r =>
         mkRecognition (continuous r) (interimResults r) (onresult r) true))
      (emit RecognitionStart).

(** [recognition.stop()] *)
Definition recognitionStop : Cmd :=
  seq (updRecognition (fun r =>
         mkRecognition (continuous r) (interimResults r) (onresult r) false))
      (emit RecognitionStop).

Definition consoleError (e : jsstring) : Cmd := emit (ConsoleError e).

Declare Scope cmd_scope.
Delimit Scope cmd_scope with cmd.
Bind Scope cmd_scope with Cmd.
Notation "c1 ;; c2" := (seq c1 c2)
  (at level 61, right associativity) : cmd_scope.
Local Open Scope cmd_scope.

(** *** Asynchronous handlers

    An [async] function runs synchronously up to its first [await].
    Each handler of [App] awaits at most once, so what it leaves
    behind is the world it has produced so far, the request it issued
    and the rest of its body, which runs on the world as it is when
    the promise settles. *)
Inductive Step : Type :=
| Finished (w : World)
| AwaitAnalysis (w : World) (finalTranscript : jsstring)
    (k : Outcome AnalysisResult -> Cmd)
| AwaitChat (w : World) (t i : jsstring) (h : list ChatMessage)
    (k : Outcome jsstring -> Cmd).

(** *** Fixed messages of the source *)

Definition msgNotSupported : jsstring :=
  lit "Speech recognition is not supported in your browser.".

Definition msgTooShort : jsstring :=
  lit "Dream recording is too short. Please try again and describe your dream in more detail.".

Definition msgAnalysisFailed : jsstring :=
  lit "Failed to analyze the dream. The spirits are troubled. Please try again.".

Definition msgChatFallback : jsstring :=
  lit "I'm sorry, I lost my train of thought. Could you ask that again?".

(** *** [resetState], lines 29-36 *)

Definition resetState : Cmd :=
  setDreamState IDLE ;;
  setDreamData None ;;
  setChatHistory [] ;;
  setError None ;;
  setTranscript [] ;;
  writeFinalTranscriptRef [].

(** *** [recognition.onresult], lines 46-59

    The [for] loop runs [i] from [event.resultIndex] while
    [i < event.results.length]; [fuel] bounds the number of iterations
    left.  The pair carried through the loop is
    [(interimTranscript, finalTranscriptChunk)]. *)
Fixpoint onresultLoop (rs : list SpeechRecognitionResult) (fuel i : nat)
    (acc : jsstring * jsstring) : jsstring * jsstring :=
  match fuel with
  | O => acc
  | S fuel' =>
      match nth_error rs i with
      | None => acc
      | Some r =>
          let transcriptChunk := transcript0 r in
          let acc' :=
            if isFinal r
            then (fst acc, snd acc ++ transcriptChunk)
            else (fst acc ++ transcriptChunk, snd acc) in
          onresultLoop rs fuel' (S i) acc'
      end
  end.

Definition onresultBody (event : SpeechRecognitionEvent) : Cmd := fun w =>
  let '(interimTranscript, finalTranscriptChunk) :=
    onresultLoop (results event)
      (length (results event) - resultIndex event) (resultIndex event)
      ([], []) in
  let current := finalTranscriptRef (app w) ++ finalTranscriptChunk in
  (writeFinalTranscriptRef current ;;
   setTranscript (current ++ interimTranscript)) w.

Definition invoke (h : ResultHandler) : SpeechRecognitionEvent -> Cmd :=
  match h with
  | AppOnResult => onresultBody
  end.

(** The engine delivers one event: the closure stored in
    [recognition.onresult], if any, is called with it. *)
Definition deliver (event : SpeechRecognitionEvent) : Cmd := fun w =>
  match recognition w with
  | Some r =>
      match onresult r with
      | Some h => invoke h event w
      | None => w
      end
  | None => w
  end.

(** The handler of [App] is the one installed. *)
Definition armed (w : World) : Prop :=
  exists r, recognition w = Some r /\ onresult r = Some AppOnResult.

(** Events are processed in arrival order, each one to completion. *)
Definition deliverAll (events : list SpeechRecognitionEvent) : Cmd :=
  fun w => fold_left (fun w' ev => deliver ev w') events w.

(** *** [handleStartRecording], lines 38-62 *)

Definition handleStartRecording : Cmd := fun w =>
  match recognition w with
  | None =>
      (setError (Some msgNotSupported) ;;
       setDreamState ERROR) w
  | Some _ =>
      (setTranscript [] ;;
       writeFinalTranscriptRef [] ;;
       assignOnresult AppOnResult ;;
       recognitionStart ;;
       setDreamState RECORDING) w
  end.

(** *** [handleStopRecording], lines 64-86 *)

Definition handleStopRecording (w0 : World) : Step :=
  let w1 :=
    ((fun w => match recognition w with
               | Some _ => recognitionStop w
               | None => w
               end) ;;
     setDreamState ANALYZING) w0 in
  let finalTranscript := trim (finalTranscriptRef (app w1)) in
  if length finalTranscript <? 10
  then Finished ((setError (Some msgTooShort) ;; setDreamState ERROR) w1)
  else
    AwaitAnalysis (emit (CallGenerateDreamAnalysis finalTranscript) w1)
      finalTranscript
      (fun settled =>
         match settled with
         | Resolved result =>
             setDreamData
               (Some {| Types.transcript := finalTranscript;
                        imageUrl := result_imageUrl result;
                        interpretation := result_interpretation result |}) ;;
             setDreamState COMPLETE
         | Rejected e =>
             consoleError e ;;
             setError (Some msgAnalysisFailed) ;;
             setDreamState ERROR
         end).

(** What [handleStopRecording] has done when it reaches its length
    test: the engine, if there is one, is stopped and [ANALYZING] is
    entered. *)
Definition stopPrefix : Cmd :=
  (fun w => match recognition w with
            | Some _ => recognitionStop w
            | None => w
            end) ;;
  setDreamState ANALYZING.

(** *** [handleSendMessage], lines 88-104

    The closure reads [dreamData] and [chatHistory] of the render that
    created it; [render] is that snapshot. *)
Definition handleSendMessage (render : AppState) (message : jsstring)
    (w0 : World) : Step :=
  match dreamData render with
  | None => Finished w0
  | Some data =>
      let newHistory :=
        chatHistory render ++ [ {| role := user; text := message |} ] in
      let w1 := (setChatHistory newHistory ;; setIsChatLoading true) w0 in
      AwaitChat
        (emit (CallGetChatResponse (Types.transcript data)
                 (interpretation data) newHistory) w1)
        (Types.transcript data) (interpretation data) newHistory
        (fun settled =>
           match settled with
           | Resolved modelResponse =>
               setChatHistory
                 (newHistory ++ [ {| role := model; text := modelResponse |} ])
           | Rejected e =>
               consoleError e ;;
               setChatHistory
                 (newHistory ++ [ {| role := model; text := msgChatFallback |} ])
           end ;;
           setIsChatLoading false)
  end.

(** The handler as the user reaches it: the one of the latest render. *)
Definition sendMessage (message : jsstring) (w : World) : Step :=
  handleSendMessage (app w) message w.

(** *** Settling a pending request

    [settle svc s] lets the services answer the request [s] is waiting
    for and runs the continuation on the world the handler left, i.e.
    with nothing else happening in between. *)
Definition settle (svc : Services) (s : Step) : World :=
  match s with
  | Finished w => w
  | AwaitAnalysis w ft k => k (generateDreamAnalysis svc ft) w
  | AwaitChat w t i h k => k (getChatResponse svc t i h) w
  end.

(** The same when other turns of the event loop ran while the request
    was in flight: the continuation runs on the world [later] that they
    left. *)
Definition resume (svc : Services) (s : Step) (later : World) : World :=
  match s with
  | Finished _ => later
  | AwaitAnalysis _ ft k => k (generateDreamAnalysis svc ft) later
  | AwaitChat _ t i h k => k (getChatResponse svc t i h) later
  end.

(** The world a handler has produced by the time it returns to the
    event loop. *)
Definition immediate (s : Step) : World :=
  match s with
  | Finished w => w
  | AwaitAnalysis w _ _ => w
  | AwaitChat w _ _ _ _ => w
  end.

(** *** What a handler did

    The operations appended to the trace between two worlds, and the
    requests to the analysis service among a list of operations. *)
Definition performed (w w' : World) (ops : list Op) : Prop :=
  trace w' = trace w ++ ops.

Fixpoint analysisCalls (ops : list Op) : list jsstring :=
  match ops with
  | [] => []
  | CallGenerateDreamAnalysis ft :: ops' => ft :: analysisCalls ops'
  | _ :: ops' => analysisCalls ops'
  end.

Fixpoint chatCalls (ops : list Op)
    : list (jsstring * jsstring * list ChatMessage) :=
  match ops with
  | [] => []
  | CallGetChatResponse t i h :: ops' => (t, i, h) :: chatCalls ops'
  | _ :: ops' => chatCalls ops'
  end.

(** *** The transcription contract in the words of the specification

    Of an event only the segments from its resume index on are new; the
    finalized ones go to the accumulator, the interim ones to the
    transient buffer. *)
Definition newSegments (event : SpeechRecognitionEvent)
    : list SpeechRecognitionResult :=
  skipn (resultIndex event) (results event).

Definition segmentsText (rs : list SpeechRecognitionResult) : jsstring :=
  concat (map transcript0 rs).

Definition finalText (event : SpeechRecognitionEvent) : jsstring :=
  segmentsText (filter isFinal (newSegments event)).

Definition interimText (event : SpeechRecognitionEvent) : jsstring :=
  segmentsText (filter (fun r => negb (isFinal r)) (newSegments event)).

Definition finalizedSoFar (events : list SpeechRecognitionEvent) : jsstring :=
  concat (map finalText events).

(** The model-role message a settled chat call leaves in the history. *)
Definition modelTurn (settled : Outcome jsstring) : ChatMessage :=
  match settled with
  | Resolved modelResponse => {| role := model; text := modelResponse |}
  | Rejected _ => {| role := model; text := msgChatFallback |}
  end.

(** *** The component in the event loop

    [renderContent], lines 106-140, decides which handler the user can
    reach: the recorder gets [startRecording] in [IDLE] and
    [stopRecording] in [RECORDING], the loading view gets none, the
    result view gets [onSendMessage] and [onNewDream] (and is rendered
    only when [dreamData] is set), the error view gets [resetState].
    [DreamDisplay.handleSend] passes the trimmed input on when it is not
    empty, and its controls are disabled while [isChatLoading]. *)
Inductive Intent : Type :=
| StartRecording
| StopRecording
| NewDream
| TryAgain
| Send (userInput : jsstring).

Definition isSet {A : Type} (o : option A) : bool :=
  match o with
  | Some _ => true
  | None => false
  end.

Definition offered (a : AppState) (i : Intent) : bool :=
  match dreamState a, i with
  | RECORDING, StopRecording => true
  | COMPLETE, NewDream => isSet (dreamData a)
  | COMPLETE, Send userInput =>
      isSet (dreamData a)
      && negb (isChatLoading a)
      && negb (length (trim userInput) =? 0)
  | ERROR, TryAgain => true
  | IDLE, StartRecording => true
  | _, _ => false
  end.

Definition handle (i : Intent) (w : World) : Step :=
  match i with
  | StartRecording => Finished (handleStartRecording w)
  | StopRecording => handleStopRecording w
  | NewDream => Finished (resetState w)
  | TryAgain => Finished (resetState w)
  | Send userInput => sendMessage (trim userInput) w
  end.

(** Promises that have not settled yet. *)
Inductive Pending : Type :=
| PendingAnalysis (k : Outcome AnalysisResult -> Cmd)
| PendingChat (k : Outcome jsstring -> Cmd).

Record Config : Type := mkConfig {
  world : World;
  pending : list Pending
}.

Definition suspend (s : Step) (ps : list Pending) : Config :=
  match s with
  | Finished w => mkConfig w ps
  | AwaitAnalysis w _ k => mkConfig w (ps ++ [PendingAnalysis k])
  | AwaitChat w _ _ _ k => mkConfig w (ps ++ [PendingChat k])
  end.

(** One turn of the event loop: a user intent the current view offers, a
    recognition event, or the settlement of any pending promise, with
    any outcome. *)
Inductive turn : Config -> Config -> Prop :=
| turn_intent : forall c i,
    offered (app (world c)) i = true ->
    turn c (suspend (handle i (world c)) (pending c))
| turn_recognized : forall c event,
    turn c (mkConfig (deliver event (world c)) (pending c))
| turn_analysis_settled : forall w ps1 k ps2 settled,
    turn (mkConfig w (ps1 ++ PendingAnalysis k :: ps2))
         (mkConfig (k settled w) (ps1 ++ ps2))
| turn_chat_settled : forall w ps1 k ps2 settled,
    turn (mkConfig w (ps1 ++ PendingChat k :: ps2))
         (mkConfig (k settled w) (ps1 ++ ps2)).

Inductive reachable (supported : bool) : Config -> Prop :=
| reachable_initial : reachable supported (mkConfig (initialWorld supported) [])
| reachable_turn : forall c c',
    reachable supported c -> turn c c' -> reachable supported c'.

(** *** The invariant of the event loop

    What every continuation left pending by [handleSendMessage] does,
    what every continuation left pending by [handleStopRecording] does
    when no [DreamData] is stored, and the invariant these give. *)
Definition chatContinuation (k : Outcome jsstring -> Cmd) : Prop :=
  forall settled w,
    dreamState (app (k settled w)) = dreamState (app w)
    /\ dreamData (app (k settled w)) = dreamData (app w).

Definition analysisContinuation (k : Outcome AnalysisResult -> Cmd) : Prop :=
  forall settled w,
    dreamData (app w) = None ->
    dreamState (app (k settled w)) = COMPLETE
    \/ (dreamState (app (k settled w)) = ERROR
        /\ dreamData (app (k settled w)) = None).

Definition pendingOk (p : Pending) : Prop :=
  match p with
  | PendingAnalysis k => analysisContinuation k
  | PendingChat k => chatContinuation k
  end.

Fixpoint analysesPending (ps : list Pending) : nat :=
  match ps with
  | [] => 0
  | PendingAnalysis _ :: ps' => S (analysesPending ps')
  | PendingChat _ :: ps' => analysesPending ps'
  end.

Definition invariant (c : Config) : Prop :=
  (dreamState (app (world c)) <> COMPLETE -> dreamData (app (world c)) = None)
  /\ Forall pendingOk (pending c)
  /\ (analysesPending (pending c) = 0
      \/ (analysesPending (pending c) = 1
          /\ dreamState (app (world c)) = ANALYZING)).

End App.

Import App.

(** ** Concrete runs used to exercise the statements *)

Module Scenario.

Definition flying : jsstring :=
  lit "I was flying over a purple ocean and then I woke up".

(** A recording in which the engine finalized [said] in one segment. *)
Definition recorded (said : jsstring) : World :=
  deliver (mkEvent 0 [mkResult said true])
    (handleStartRecording (initialWorld true)).

Definition picture : AnalysisResult :=
  {| result_interpretation := lit "...";
     result_imageUrl := lit "http://x/img.png" |}.

Definition servicesUp : Services :=
  {| generateDreamAnalysis := fun _ => Resolved picture;
     getChatResponse := fun _ _ _ => Resolved (lit "The ocean is calm.") |}.

Definition servicesDown : Services :=
  {| generateDreamAnalysis := fun _ => Rejected (lit "503");
     getChatResponse := fun _ _ _ => Rejected (lit "503") |}.

(** The result view after the analysis of [flying] succeeded. *)
Definition interpreted : World :=
  settle servicesUp (handleStopRecording (recorded flying)).

End Scenario.
Local Open Scope cmd_scope.

(** ** What [renderContent] shows, lines 106-140 *)

Module Render.

(** The element [renderContent] returns, with the props it passes. *)
Inductive View : Type :=
| VoiceRecorderIdle
| VoiceRecorderRecording (shown : jsstring)
| LoadingAnalysis
| DreamDisplayView (data : DreamData) (history : list ChatMessage)
    (loading : bool)
| Nothing
| ErrorView (message : option jsstring).

Definition renderContent (a : AppState) : View :=
  match dreamState a with
  | RECORDING => VoiceRecorderRecording (transcript a)
  | ANALYZING => LoadingAnalysis
  | COMPLETE =>
      match dreamData a with
      | Some data => DreamDisplayView data (chatHistory a) (isChatLoading a)
      | None => Nothing
      end
  | ERROR => ErrorView (error a)
  | IDLE => VoiceRecorderIdle
  end.

End Render.

Import Render.

(** ** [components/DreamDisplay.tsx] *)

Module DreamDisplay.

Fixpoint jsEqb (s t : jsstring) : bool :=
  match s, t with
  | [], [] => true
  | c :: s', d :: t' => N.eqb c d && jsEqb s' t'
  | _, _ => false
  end.

(** [s.startsWith(prefix)] *)
Fixpoint startsWith (prefix s : jsstring) : bool :=
  match prefix, s with
  | [], _ => true
  | p :: prefix', c :: s' => N.eqb p c && startsWith prefix' s'
  | _ :: _, [] => false
  end.

Definition newline : N := 10%N.
Definition hash : N := 35%N.

(** [s.split('\n')]: the pieces between line feeds; the empty string
    gives one empty piece. *)
Fixpoint splitLines (s : jsstring) : list jsstring :=
  match s with
  | [] => [[]]
  | c :: s' =>
      if N.eqb c newline then [] :: splitLines s'
      else match splitLines s' with
           | line :: lines => (c :: line) :: lines
           | [] => [[c]]
           end
  end.

(** [line.replace(/#/g, '')] *)
Definition removeHashes (line : jsstring) : jsstring :=
  filter (fun c => negb (N.eqb c hash)) line.

(** The element one line of the interpretation becomes, lines 44-50. *)
Inductive Block : Type :=
| Heading (key : nat) (headingText : jsstring)
| Paragraph (key : nat) (line : jsstring).

Definition isHeadingLine (line : jsstring) : bool :=
  startsWith (lit "###") line || startsWith (lit "##") line
  || startsWith (lit "# ") line.

Definition renderLine (index : nat) (line : jsstring) : Block :=
  if isHeadingLine line
  then Heading index (trim (removeHashes line))
  else Paragraph index line.

(** [lines.map((line, index) => ...)] *)
Fixpoint mapIndexed {A B : Type} (f : nat -> A -> B) (index : nat)
    (l : list A) : list B :=
  match l with
  | [] => []
  | x :: l' => f index x :: mapIndexed f (S index) l'
  end.

Definition renderInterpretation (interpretation : jsstring) : list Block :=
  mapIndexed renderLine 0 (splitLines interpretation).

(** [handleSend], lines 18-23: what, if anything, is passed to
    [onSendMessage], and the input field afterwards.  A string is truthy
    when it is not empty. *)
Definition handleSend (userInput : jsstring)
    : option jsstring * jsstring :=
  match trim userInput with
  | [] => (None, userInput)
  | _ :: _ => (Some (trim userInput), [])
  end.

(** [handleKeyPress], lines 25-29 *)
Definition handleKeyPress (key : jsstring) (isChatLoading : bool)
    (userInput : jsstring) : option jsstring * jsstring :=
  if jsEqb key (lit "Enter") && negb isChatLoading
  then handleSend userInput
  else (None, userInput).

(** The send button, line 86: [onClick={handleSend}], disabled while
    [isChatLoading]. *)
Definition clickSend (isChatLoading : bool) (userInput : jsstring)
    : option jsstring * jsstring :=
  if isChatLoading then (None, userInput) else handleSend userInput.

(** What the view shows of a block, and the text the blocks were made
    from when joined by line feeds again. *)
Definition blockText (b : Block) : jsstring :=
  match b with
  | Heading _ t => t
  | Paragraph _ t => t
  end.

Definition blockKey (b : Block) : nat :=
  match b with
  | Heading k _ => k
  | Paragraph k _ => k
  end.

Fixpoint joinLines (lines : list jsstring) : jsstring :=
  match lines with
  | [] => []
  | [line] => line
  | line :: lines' => line ++ newline :: joinLines lines'
  end.

End DreamDisplay.

(** ** What the event loop maintains *)

Module Loop.

(** What a transcript must satisfy to reach the analysis service: the
    length test of [handleStopRecording] on a trimmed string. *)
Definition requestOk (finalTranscript : jsstring) : Prop :=
  10 <= length finalTranscript /\ trim finalTranscript = finalTranscript.

(** What [DreamDisplay.handleSend] lets through. *)
Definition sendable (message : jsstring) : Prop :=
  message <> [] /\ trim message = message.

(** A history made of complete exchanges: a user turn with a sendable
    text, answered by a model turn. *)
Inductive conversation : list ChatMessage -> Prop :=
| conversation_nil : conversation []
| conversation_exchange : forall h message reply,
    conversation h ->
    sendable message ->
    conversation (h ++ [ {| role := user; text := message |};
                         {| role := model; text := reply |} ]).

Fixpoint chatsPending (ps : list Pending) : nat :=
  match ps with
  | [] => 0
  | PendingChat _ :: ps' => S (chatsPending ps')
  | PendingAnalysis _ :: ps' => chatsPending ps'
  end.

(** The recognition handle after [recognition.stop()]. *)
Definition stopped (r : Recognition) : Recognition :=
  mkRecognition (continuous r) (interimResults r) (onresult r) false.

(** The part of a world the invariant speaks about. *)
Record Obs : Type := mkObs {
  oState : DreamState;
  oData : option DreamData;
  oHistory : list ChatMessage;
  oLoading : bool;
  oError : option jsstring;
  oRecognition : option Recognition;
  oCalls : list jsstring
}.

Definition observe (w : World) : Obs :=
  {| oState := dreamState (app w);
     oData := dreamData (app w);
     oHistory := chatHistory (app w);
     oLoading := isChatLoading (app w);
     oError := error (app w);
     oRecognition := recognition w;
     oCalls := analysisCalls (trace w) |}.

(** What the continuation of a chat call in flight will do, and how the
    history it will write relates to the one stored now. *)
Definition chatInFlight (o : Obs) (k : Outcome jsstring -> Cmd) : Prop :=
  exists h message,
    conversation h /\ sendable message
    /\ (oHistory o = h ++ [ {| role := user; text := message |} ]
        \/ oHistory o = [])
    /\ forall settled w,
         observe (k settled w) =
         {| oState := dreamState (app w);
            oData := dreamData (app w);
            oHistory := h ++ [ {| role := user; text := message |};
                               modelTurn settled ];
            oLoading := false;
            oError := error (app w);
            oRecognition := recognition w;
            oCalls := analysisCalls (trace w) |}.

(** What the continuation of an analysis call in flight will do. *)
Definition analysisInFlight (k : Outcome AnalysisResult -> Cmd) : Prop :=
  forall settled w,
    (exists data,
       requestOk (Types.transcript data)
       /\ observe (k settled w) =
          {| oState := COMPLETE;
             oData := Some data;
             oHistory := chatHistory (app w);
             oLoading := isChatLoading (app w);
             oError := error (app w);
             oRecognition := recognition w;
             oCalls := analysisCalls (trace w) |})
    \/ observe (k settled w) =
       {| oState := ERROR;
          oData := dreamData (app w);
          oHistory := chatHistory (app w);
          oLoading := isChatLoading (app w);
          oError := Some msgAnalysisFailed;
          oRecognition := recognition w;
          oCalls := analysisCalls (trace w) |}.

Definition inFlight (o : Obs) (p : Pending) : Prop :=
  match p with
  | PendingAnalysis k => analysisInFlight k
  | PendingChat k => chatInFlight o k
  end.

Definition engineListening (o : Obs) : Prop :=
  exists r, oRecognition o = Some r /\ listening r = true.

Record Maintained (o : Obs) (ps : list Pending) : Prop := mkMaintained {
  data_iff_complete : oState o = COMPLETE <-> oData o <> None;
  data_transcript : forall data,
      oData o = Some data -> requestOk (Types.transcript data);
  error_iff_error : oState o = ERROR <-> oError o <> None;
  analysis_single : analysesPending ps <= 1;
  analysis_iff_analyzing : oState o = ANALYZING <-> analysesPending ps = 1;
  chat_single : chatsPending ps <= 1;
  chat_iff_loading : oLoading o = true <-> chatsPending ps = 1;
  history_conversation : oLoading o = false -> conversation (oHistory o);
  pending_in_flight : Forall (inFlight o) ps;
  listening_iff_recording : oState o = RECORDING <-> engineListening o;
  listening_armed : forall r,
      oRecognition o = Some r -> listening r = true ->
      onresult r = Some AppOnResult;
  calls_ok : Forall requestOk (oCalls o)
}.

Definition maintained (c : Config) : Prop :=
  Maintained (observe (world c)) (pending c).

(** Two turns of a run used to exercise the statements: the recording
    view, and the result view with a chat call in flight. *)
Definition recordingConfig : Config :=
  suspend (handle StartRecording (initialWorld true)) [].

Definition interpretedConfig : Config := mkConfig Scenario.interpreted [].

Definition chattingConfig : Config :=
  suspend (handle (Send (lit " Why purple? ")) (world interpretedConfig))
    (pending interpretedConfig).

End Loop.

Import Loop.

(** * Properties *)

(** Runs the primitive operations of a handler on a symbolic world. *)
Ltac exec :=
  cbn [setDreamState setDreamData setChatHistory setIsChatLoading
       setError setTranscript writeFinalTranscriptRef assignOnresult
       recognitionStart recognitionStop consoleError
       seq emit updApp updRecognition
       app recognition trace dreamState dreamData chatHistory isChatLoading
       error transcript finalTranscriptRef].

(** ** Concrete runs *)

Example trim_both_ends :
  trim (lit "  hi there ") = lit "hi there"
  /\ trim ([9; 160; 8232] ++ lit "x" ++ [65279; 10; 13])%N = lit "x"
  /\ trim (lit "   ") = [].
Proof. repeat split. Qed.

Example onresult_resumes_at_resultIndex :
  let event :=
    mkEvent 1 [mkResult (lit "old ") true; mkResult (lit "new ") true;
               mkResult (lit "gue") false; mkResult (lit "ss") false] in
  finalText event = lit "new " /\ interimText event = lit "guess"
  /\ onresultLoop (results event) 3 1 ([], []) = (lit "guess", lit "new ").
Proof. repeat split. Qed.

Example interim_text_is_replaced :
  let e1 := mkEvent 0 [mkResult (lit "I wos") false] in
  let e2 := mkEvent 0 [mkResult (lit "I was ") true; mkResult (lit "fly") false] in
  let e3 := mkEvent 1 [mkResult (lit "I was ") true; mkResult (lit "flying") true] in
  let w := handleStartRecording (initialWorld true) in
  transcript (app (deliverAll [e1] w)) = lit "I wos"
  /\ transcript (app (deliverAll [e1; e2] w)) = lit "I was fly"
  /\ transcript (app (deliverAll [e1; e2; e3] w)) = lit "I was flying"
  /\ finalTranscriptRef (app (deliverAll [e1; e2; e3] w)) = lit "I was flying".
Proof. repeat split. Qed.

Example short_recording_scenario :
  let w := settle Scenario.servicesUp
             (handleStopRecording (Scenario.recorded (lit "hi"))) in
  dreamState (app w) = ERROR
  /\ error (app w) = Some msgTooShort
  /\ analysisCalls (trace w) = [].
Proof. repeat split. Qed.

Example flying_scenario :
  dreamState (app Scenario.interpreted) = COMPLETE
  /\ analysisCalls (trace Scenario.interpreted) = [Scenario.flying]
  /\ option_map Types.transcript (dreamData (app Scenario.interpreted))
     = Some Scenario.flying.
Proof. repeat split. Qed.

(** ** The recognition handler *)

Lemma skipn_nth_error_cons :
  forall (A : Type) (l : list A) (i : nat) (x : A),
    nth_error l i = Some x -> skipn i l = x :: skipn (S i) l.
Proof.
  induction l as [| y l IH]; intros [| i] x H; simpl in *; try discriminate.
  - now inversion H.
  - now apply IH.
Qed.

Lemma segmentsText_app :
  forall rs1 rs2, segmentsText (rs1 ++ rs2) = segmentsText rs1 ++ segmentsText rs2.
Proof.
  intros. unfold segmentsText. now rewrite map_app, concat_app.
Qed.

(** The index loop of the handler computes the two texts of the
    specification: the interim and the finalized text of the segments
    from [i] on, appended to what the loop has built so far. *)
Lemma onresultLoop_spec :
  forall rs fuel i interim final,
    fuel = length rs - i ->
    onresultLoop rs fuel i (interim, final) =
    (interim ++ segmentsText (filter (fun r => negb (isFinal r)) (skipn i rs)),
     final ++ segmentsText (filter isFinal (skipn i rs))).
Proof.
  intros rs fuel. induction fuel as [| fuel IH]; intros i interim final Hfuel.
  - simpl. rewrite skipn_all2 by lia. simpl. now rewrite !app_nil_r.
  - simpl. destruct (nth_error rs i) as [r |] eqn:Hnth.
    + rewrite (skipn_nth_error_cons _ _ _ _ Hnth). simpl.
      destruct (isFinal r); simpl; rewrite IH by lia;
        unfold segmentsText; simpl; now rewrite <- ?app_assoc.
    + apply nth_error_None in Hnth. lia.
Qed.

Lemma onresultLoop_event :
  forall event,
    onresultLoop (results event)
      (length (results event) - resultIndex event) (resultIndex event) ([], [])
    = (interimText event, finalText event).
Proof.
  intros. now rewrite onresultLoop_spec.
Qed.

Lemma onresultBody_eq :
  forall event w,
    onresultBody event w =
    (writeFinalTranscriptRef (finalTranscriptRef (app w) ++ finalText event) ;;
     setTranscript
       ((finalTranscriptRef (app w) ++ finalText event) ++ interimText event)) w.
Proof.
  intros. unfold onresultBody. now rewrite onresultLoop_event.
Qed.

Lemma deliver_armed :
  forall event w, armed w -> deliver event w = onresultBody event w.
Proof.
  intros event w (r & Hr & Hh). unfold deliver. now rewrite Hr, Hh.
Qed.

Lemma onresultBody_armed :
  forall event w, armed w -> armed (onresultBody event w).
Proof.
  intros event w H. rewrite onresultBody_eq. exact H.
Qed.

Lemma deliverAll_snoc :
  forall events event w,
    deliverAll (events ++ [event]) w = deliver event (deliverAll events w).
Proof.
  intros. unfold deliverAll. now rewrite fold_left_app.
Qed.

Lemma finalizedSoFar_snoc :
  forall events event,
    finalizedSoFar (events ++ [event]) = finalizedSoFar events ++ finalText event.
Proof.
  intros. unfold finalizedSoFar.
  rewrite map_app, concat_app. simpl. now rewrite app_nil_r.
Qed.

(** While the handler stays installed, the accumulator is the one the
    session began with followed by every finalized segment processed. *)
Lemma deliverAll_accumulator :
  forall events w,
    armed w ->
    armed (deliverAll events w) /\
    finalTranscriptRef (app (deliverAll events w)) =
    finalTranscriptRef (app w) ++ finalizedSoFar events.
Proof.
  intros events. induction events as [| event events IH] using rev_ind;
    intros w Harmed.
  - split; [exact Harmed | simpl; now rewrite app_nil_r].
  - destruct (IH w Harmed) as [Ha Href].
    rewrite deliverAll_snoc, (deliver_armed _ _ Ha), finalizedSoFar_snoc.
    split; [now apply onresultBody_armed |].
    rewrite onresultBody_eq. simpl. rewrite Href. now rewrite app_assoc.
Qed.

Lemma deliverAll_displayed :
  forall events event w,
    armed w ->
    transcript (app (deliverAll (events ++ [event]) w)) =
    (finalTranscriptRef (app w) ++ finalizedSoFar (events ++ [event]))
      ++ interimText event.
Proof.
  intros events event w Harmed.
  destruct (deliverAll_accumulator events _ Harmed) as [Ha Href].
  rewrite deliverAll_snoc, (deliver_armed _ _ Ha), finalizedSoFar_snoc.
  rewrite onresultBody_eq. simpl. rewrite Href. now rewrite app_assoc.
Qed.

Lemma handleStartRecording_available :
  forall w,
    recognition w <> None ->
    handleStartRecording w =
    (setTranscript [] ;;
     writeFinalTranscriptRef [] ;;
     assignOnresult AppOnResult ;;
     recognitionStart ;;
     setDreamState RECORDING) w.
Proof.
  intros w H. unfold handleStartRecording.
  destruct (recognition w); [reflexivity | contradiction].
Qed.

Lemma handleStartRecording_armed :
  forall w, recognition w <> None -> armed (handleStartRecording w).
Proof.
  intros w H. rewrite handleStartRecording_available by exact H.
  destruct (recognition w) as [r |] eqn:Hr; [| contradiction].
  unfold armed. simpl. rewrite Hr. simpl. eauto.
Qed.

Lemma handleStartRecording_cleared :
  forall w,
    recognition w <> None ->
    transcript (app (handleStartRecording w)) = [] /\
    finalTranscriptRef (app (handleStartRecording w)) = [].
Proof.
  intros w H. rewrite handleStartRecording_available by exact H. now split.
Qed.

(** C1.  After a recording has been started, and after each recognition
    event of any sequence of events, the displayed transcript is the
    concatenation of all finalized segments processed so far followed by
    the interim segments of the most recent event only; the accumulator
    holds the finalized segments alone, so interim text of an earlier
    event is not counted again. *)
Theorem displayed_transcript_after_each_event :
  forall (w : World) (events : list SpeechRecognitionEvent)
         (event : SpeechRecognitionEvent),
    recognition w <> None ->
    let w' := deliverAll (events ++ [event]) (handleStartRecording w) in
    transcript (app w') = finalizedSoFar (events ++ [event]) ++ interimText event
    /\ finalTranscriptRef (app w') = finalizedSoFar (events ++ [event]).
Proof.
  intros w events event H w'. subst w'.
  pose proof (handleStartRecording_armed _ H) as Harmed.
  destruct (handleStartRecording_cleared _ H) as [_ Href].
  split.
  - rewrite (deliverAll_displayed _ _ _ Harmed), Href. reflexivity.
  - destruct (deliverAll_accumulator (events ++ [event]) _ Harmed) as [_ E].
    rewrite E, Href. reflexivity.
Qed.

Lemma displayed_transcript_after_each_event_witness :
  let w := initialWorld true in
  let e1 := mkEvent 0 [mkResult (lit "I was") false] in
  let e2 := mkEvent 0 [mkResult (lit "I was ") true; mkResult (lit "fly") false] in
  recognition w <> None /\
  (let w' := deliverAll ([e1] ++ [e2]) (handleStartRecording w) in
   transcript (app w') = finalizedSoFar ([e1] ++ [e2]) ++ interimText e2
   /\ finalTranscriptRef (app w') = finalizedSoFar ([e1] ++ [e2])).
Proof.
  intros w e1 e2. split.
  - discriminate.
  - apply (displayed_transcript_after_each_event w [e1] e2). discriminate.
Defined.

(** ** Stopping a recording *)

Lemma analysisCalls_app :
  forall ops1 ops2,
    analysisCalls (ops1 ++ ops2) = analysisCalls ops1 ++ analysisCalls ops2.
Proof.
  induction ops1 as [| o ops1 IH]; intros ops2; [reflexivity |].
  destruct o; simpl; rewrite ?IH; reflexivity.
Qed.

Lemma stopPrefix_app :
  forall w,
    dreamData (app (stopPrefix w)) = dreamData (app w) /\
    finalTranscriptRef (app (stopPrefix w)) = finalTranscriptRef (app w).
Proof.
  intros w. unfold stopPrefix, seq. destruct (recognition w); now split.
Qed.

Lemma stopPrefix_performed :
  forall w,
    exists ops, performed w (stopPrefix w) ops /\ analysisCalls ops = []
                /\ forall d, ~ In (SetDreamData d) ops.
Proof.
  intros w. unfold stopPrefix, seq, performed. destruct (recognition w).
  - exists [RecognitionStop; SetDreamState ANALYZING]. simpl.
    rewrite <- app_assoc. repeat split. intros d [H | [H | []]]; discriminate.
  - exists [SetDreamState ANALYZING]. simpl.
    repeat split. intros d [H | []]; discriminate.
Qed.

Lemma handleStopRecording_short :
  forall w,
    length (trim (finalTranscriptRef (app w))) < 10 ->
    handleStopRecording w =
    Finished ((setError (Some msgTooShort) ;; setDreamState ERROR) (stopPrefix w)).
Proof.
  intros w H. unfold handleStopRecording. fold stopPrefix.
  destruct (stopPrefix_app w) as [_ E]. rewrite E.
  apply Nat.ltb_lt in H. now rewrite H.
Qed.

Lemma handleStopRecording_long :
  forall w,
    10 <= length (trim (finalTranscriptRef (app w))) ->
    exists k,
      handleStopRecording w =
      AwaitAnalysis
        (emit (CallGenerateDreamAnalysis (trim (finalTranscriptRef (app w))))
           (stopPrefix w))
        (trim (finalTranscriptRef (app w))) k
      /\ (forall result,
            k (Resolved result) =
            (setDreamData
               (Some {| Types.transcript := trim (finalTranscriptRef (app w));
                        imageUrl := result_imageUrl result;
                        interpretation := result_interpretation result |}) ;;
             setDreamState COMPLETE))
      /\ (forall e,
            k (Rejected e) =
            (consoleError e ;;
             setError (Some msgAnalysisFailed) ;;
             setDreamState ERROR)).
Proof.
  intros w H. unfold handleStopRecording. fold stopPrefix.
  destruct (stopPrefix_app w) as [_ E]. rewrite E.
  apply Nat.ltb_ge in H. rewrite H.
  eexists. split; [reflexivity |]. split; reflexivity.
Qed.

(** C2.  When the trimmed accumulator has fewer than 10 code units, a
    stop request finishes without awaiting anything, in [ERROR] with the
    short-transcript message, and none of the operations it performed is
    a call to the analysis service, whatever the services would answer. *)
Theorem stop_short_transcript_yields_error :
  forall (w : World) (svc : Services),
    length (trim (finalTranscriptRef (app w))) < 10 ->
    exists w' ops,
      handleStopRecording w = Finished w'
      /\ settle svc (handleStopRecording w) = w'
      /\ dreamState (app w') = ERROR
      /\ error (app w') = Some msgTooShort
      /\ performed w w' ops
      /\ analysisCalls ops = [].
Proof.
  intros w svc H. rewrite (handleStopRecording_short _ H).
  destruct (stopPrefix_performed w) as (ops & Hops & Hcalls & _).
  eexists. exists (ops ++ [SetError (Some msgTooShort); SetDreamState ERROR]).
  repeat split.
  - unfold performed in *.
    exec. rewrite Hops. now rewrite <- !app_assoc.
  - rewrite analysisCalls_app, Hcalls. reflexivity.
Qed.

Lemma stop_short_transcript_yields_error_witness :
  length (trim (finalTranscriptRef (app (Scenario.recorded (lit " hi "))))) < 10
  /\ exists w' ops,
      handleStopRecording (Scenario.recorded (lit " hi ")) = Finished w'
      /\ settle Scenario.servicesUp
           (handleStopRecording (Scenario.recorded (lit " hi "))) = w'
      /\ dreamState (app w') = ERROR
      /\ error (app w') = Some msgTooShort
      /\ performed (Scenario.recorded (lit " hi ")) w' ops
      /\ analysisCalls ops = [].
Proof.
  split.
  - vm_compute. lia.
  - apply (stop_short_transcript_yields_error
             (Scenario.recorded (lit " hi ")) Scenario.servicesUp).
    vm_compute. lia.
Defined.

Lemma settle_handleStopRecording_long :
  forall w svc,
    10 <= length (trim (finalTranscriptRef (app w))) ->
    settle svc (handleStopRecording w) =
    match generateDreamAnalysis svc (trim (finalTranscriptRef (app w))) with
    | Resolved result =>
        setDreamData
          (Some {| Types.transcript := trim (finalTranscriptRef (app w));
                   imageUrl := result_imageUrl result;
                   interpretation := result_interpretation result |}) ;;
        setDreamState COMPLETE
    | Rejected e =>
        consoleError e ;;
        setError (Some msgAnalysisFailed) ;;
        setDreamState ERROR
    end
      (emit (CallGenerateDreamAnalysis (trim (finalTranscriptRef (app w))))
         (stopPrefix w)).
Proof.
  intros w svc H.
  destruct (handleStopRecording_long _ H) as (k & -> & Hok & Hko). simpl.
  destruct (generateDreamAnalysis svc _); [now rewrite Hok | now rewrite Hko].
Qed.

(** C3.  When the trimmed accumulator has at least 10 code units and
    the analysis call is fulfilled with a result, a stop request ends in
    [COMPLETE]; the stored [DreamData] has the trimmed accumulator as
    its transcript and the interpretation and image URL of the result;
    the analysis service was called exactly once, with that same
    trimmed string. *)
Theorem stop_analysis_success_yields_complete :
  forall (w : World) (svc : Services) (result : AnalysisResult),
    10 <= length (trim (finalTranscriptRef (app w))) ->
    generateDreamAnalysis svc (trim (finalTranscriptRef (app w)))
      = Resolved result ->
    let finalTranscript := trim (finalTranscriptRef (app w)) in
    let w' := settle svc (handleStopRecording w) in
    dreamState (app w') = COMPLETE
    /\ dreamData (app w') =
         Some {| Types.transcript := finalTranscript;
                 imageUrl := result_imageUrl result;
                 interpretation := result_interpretation result |}
    /\ exists ops, performed w w' ops /\ analysisCalls ops = [finalTranscript].
Proof.
  intros w svc result Hlen Hsvc finalTranscript w'. subst w' finalTranscript.
  rewrite (settle_handleStopRecording_long _ _ Hlen), Hsvc.
  destruct (stopPrefix_performed w) as (ops & Hops & Hcalls & _).
  repeat split.
  eexists. split.
  - unfold performed in *. exec. rewrite Hops.
    rewrite <- !app_assoc. reflexivity.
  - rewrite analysisCalls_app, Hcalls. reflexivity.
Qed.

Lemma stop_analysis_success_yields_complete_witness :
  10 <= length (trim (finalTranscriptRef (app (Scenario.recorded Scenario.flying))))
  /\ generateDreamAnalysis Scenario.servicesUp
       (trim (finalTranscriptRef (app (Scenario.recorded Scenario.flying))))
     = Resolved Scenario.picture
  /\ dreamState (app Scenario.interpreted) = COMPLETE
  /\ dreamData (app Scenario.interpreted) =
       Some {| Types.transcript := Scenario.flying;
               imageUrl := lit "http://x/img.png";
               interpretation := lit "..." |}.
Proof.
  assert (Hlen : 10 <= length (trim (finalTranscriptRef
                                       (app (Scenario.recorded Scenario.flying)))))
    by (vm_compute; lia).
  split; [exact Hlen |]. split; [reflexivity |].
  destruct (stop_analysis_success_yields_complete
              (Scenario.recorded Scenario.flying) Scenario.servicesUp
              Scenario.picture Hlen eq_refl) as (Hstate & Hdata & _).
  split; [exact Hstate | exact Hdata].
Defined.

(** C4.  When the analysis call is rejected, a stop request ends in
    [ERROR] with the analysis-failure message, which is not empty; no
    [DreamData] is stored: [setDreamData] is not among the operations
    performed, and the [dreamData] that was null stays null. *)
Theorem stop_analysis_failure_yields_error :
  forall (w : World) (svc : Services) (e : jsstring),
    10 <= length (trim (finalTranscriptRef (app w))) ->
    generateDreamAnalysis svc (trim (finalTranscriptRef (app w)))
      = Rejected e ->
    dreamData (app w) = None ->
    let w' := settle svc (handleStopRecording w) in
    dreamState (app w') = ERROR
    /\ error (app w') = Some msgAnalysisFailed
    /\ msgAnalysisFailed <> []
    /\ dreamData (app w') = None
    /\ exists ops, performed w w' ops /\ forall d, ~ In (SetDreamData d) ops.
Proof.
  intros w svc e Hlen Hsvc Hnull w'. subst w'.
  rewrite (settle_handleStopRecording_long _ _ Hlen), Hsvc.
  destruct (stopPrefix_performed w) as (ops & Hops & _ & Hset).
  destruct (stopPrefix_app w) as [Hdata _].
  split; [reflexivity |]. split; [reflexivity |].
  split; [discriminate |]. split.
  - exec. now rewrite Hdata.
  - eexists. split.
    + unfold performed in *. exec. rewrite Hops.
      rewrite <- !app_assoc. reflexivity.
    + intros d Hin. apply in_app_or in Hin. destruct Hin as [Hin | Hin].
      * exact (Hset d Hin).
      * simpl in Hin. decompose [or] Hin; try discriminate; assumption.
Qed.

Lemma stop_analysis_failure_yields_error_witness :
  10 <= length (trim (finalTranscriptRef (app (Scenario.recorded Scenario.flying))))
  /\ generateDreamAnalysis Scenario.servicesDown
       (trim (finalTranscriptRef (app (Scenario.recorded Scenario.flying))))
     = Rejected (lit "503")
  /\ dreamData (app (Scenario.recorded Scenario.flying)) = None
  /\ dreamState (app (settle Scenario.servicesDown
                        (handleStopRecording (Scenario.recorded Scenario.flying))))
     = ERROR.
Proof.
  assert (Hlen : 10 <= length (trim (finalTranscriptRef
                                       (app (Scenario.recorded Scenario.flying)))))
    by (vm_compute; lia).
  split; [exact Hlen |]. split; [reflexivity |]. split; [reflexivity |].
  exact (proj1 (stop_analysis_failure_yields_error
                  (Scenario.recorded Scenario.flying) Scenario.servicesDown
                  (lit "503") Hlen eq_refl eq_refl)).
Defined.

(** ** Sending a chat message *)

Lemma handleSendMessage_with_data :
  forall render message w data,
    dreamData render = Some data ->
    let newHistory :=
      chatHistory render ++ [ {| role := user; text := message |} ] in
    exists k,
      handleSendMessage render message w =
      AwaitChat
        (emit (CallGetChatResponse (Types.transcript data)
                 (interpretation data) newHistory)
           ((setChatHistory newHistory ;; setIsChatLoading true) w))
        (Types.transcript data) (interpretation data) newHistory k
      /\ forall settled,
          k settled =
          ((match settled with
            | Resolved _ => fun w => w
            | Rejected e => consoleError e
            end) ;;
           setChatHistory (newHistory ++ [modelTurn settled]) ;;
           setIsChatLoading false).
Proof.
  intros render message w data H newHistory.
  unfold handleSendMessage. rewrite H. fold newHistory.
  eexists. split; [reflexivity |].
  intros [modelResponse | e]; reflexivity.
Qed.

(** C5.  With [DreamData] present, sending [message] leaves the chat
    history, as soon as the handler returns to the event loop, equal to
    the prior history followed by one user-role message carrying
    [message]; the chat service is called with the stored transcript,
    the stored interpretation and that history; once the call settles
    the history is the prior history, the user message and one
    model-role message, the reply when the call is fulfilled and the
    fixed apology when it is rejected. *)
Theorem send_message_appends_user_then_model :
  forall (w : World) (data : DreamData) (message : jsstring) (svc : Services),
    dreamData (app w) = Some data ->
    let prior := chatHistory (app w) in
    let userTurn := {| role := user; text := message |} in
    let settled :=
      getChatResponse svc (Types.transcript data) (interpretation data)
        (prior ++ [userTurn]) in
    chatHistory (app (immediate (sendMessage message w))) = prior ++ [userTurn]
    /\ chatHistory (app (settle svc (sendMessage message w)))
       = prior ++ [userTurn; modelTurn settled]
    /\ role (modelTurn settled) = model
    /\ text (modelTurn settled) =
       match settled with
       | Resolved modelResponse => modelResponse
       | Rejected _ => msgChatFallback
       end
    /\ exists ops,
         performed w (settle svc (sendMessage message w)) ops
         /\ chatCalls ops =
            [(Types.transcript data, interpretation data, prior ++ [userTurn])].
Proof.
  intros w data message svc Hdata prior userTurn settled.
  unfold sendMessage.
  destruct (handleSendMessage_with_data (app w) message w data Hdata)
    as (k & -> & Hk).
  fold prior userTurn. simpl immediate. simpl settle. fold settled.
  rewrite Hk. split; [reflexivity |].
  split; [exec; now rewrite <- app_assoc |].
  split; [now destruct settled |]. split; [now destruct settled |].
  destruct settled as [modelResponse | e]; eexists; split.
  - unfold performed. exec. rewrite <- !app_assoc. reflexivity.
  - reflexivity.
  - unfold performed. exec. rewrite <- !app_assoc. reflexivity.
  - reflexivity.
Qed.

Lemma send_message_appends_user_then_model_witness :
  dreamData (app Scenario.interpreted)
    = Some {| Types.transcript := Scenario.flying;
              imageUrl := lit "http://x/img.png";
              interpretation := lit "..." |}
  /\ chatHistory (app (immediate (sendMessage (lit "Why purple?")
                                   Scenario.interpreted)))
     = [ {| role := user; text := lit "Why purple?" |} ]
  /\ chatHistory (app (settle Scenario.servicesDown
                         (sendMessage (lit "Why purple?") Scenario.interpreted)))
     = [ {| role := user; text := lit "Why purple?" |};
         {| role := model; text := msgChatFallback |} ].
Proof.
  split; [reflexivity |].
  destruct (send_message_appends_user_then_model
              Scenario.interpreted _ (lit "Why purple?") Scenario.servicesDown
              eq_refl) as (Hnow & Hthen & _).
  split; [exact Hnow | exact Hthen].
Defined.

(** C10.  With no [DreamData] stored, sending a message returns at once
    with the world exactly as it was: nothing is appended to the chat
    history, the loading flag is not touched, no operation is performed
    and no request is pending. *)
Theorem send_message_without_data_is_noop :
  forall (w : World) (message : jsstring) (svc : Services),
    dreamData (app w) = None ->
    sendMessage message w = Finished w
    /\ settle svc (sendMessage message w) = w
    /\ performed w (settle svc (sendMessage message w)) [].
Proof.
  intros w message svc H. unfold sendMessage, handleSendMessage. rewrite H.
  repeat split. unfold performed. simpl. now rewrite app_nil_r.
Qed.

Lemma send_message_without_data_is_noop_witness :
  dreamData (app (initialWorld true)) = None
  /\ sendMessage (lit "hello") (initialWorld true) = Finished (initialWorld true).
Proof.
  split; [reflexivity |].
  exact (proj1 (send_message_without_data_is_noop
                  (initialWorld true) (lit "hello") Scenario.servicesUp eq_refl)).
Defined.

(** C8.  Sending a message, whether or not [DreamData] is stored and
    however the chat call settles, leaves [dreamState], [dreamData],
    [error] and [transcript] as they were, and likewise the accumulator
    and the recognition handle; this holds when the handler returns to
    the event loop and when the call has settled.  Every state setter it
    calls is [setChatHistory] or [setIsChatLoading]. *)
Theorem send_message_frame :
  forall (w : World) (message : jsstring) (svc : Services),
    let unchanged (w' : World) :=
      dreamState (app w') = dreamState (app w)
      /\ dreamData (app w') = dreamData (app w)
      /\ error (app w') = error (app w)
      /\ transcript (app w') = transcript (app w)
      /\ finalTranscriptRef (app w') = finalTranscriptRef (app w)
      /\ recognition w' = recognition w in
    unchanged (immediate (sendMessage message w))
    /\ unchanged (settle svc (sendMessage message w))
    /\ exists ops,
         performed w (settle svc (sendMessage message w)) ops
         /\ forall o, In o ops ->
              match o with
              | SetChatHistory _ | SetIsChatLoading _
              | ConsoleError _ | CallGetChatResponse _ _ _ => True
              | _ => False
              end.
Proof.
  intros w message svc unchanged. subst unchanged.
  unfold sendMessage, handleSendMessage.
  destruct (dreamData (app w)) as [data |] eqn:Hdata.
  - simpl immediate. simpl settle.
    split; [exec; rewrite Hdata; repeat split |].
    destruct (getChatResponse svc _ _ _) as [modelResponse | e].
    + split; [exec; rewrite Hdata; repeat split |].
      eexists. split.
      * unfold performed. exec. rewrite <- !app_assoc. reflexivity.
      * intros o Hin. simpl in Hin.
        decompose [or] Hin; subst; try exact I; contradiction.
    + split; [exec; rewrite Hdata; repeat split |].
      eexists. split.
      * unfold performed. exec. rewrite <- !app_assoc. reflexivity.
      * intros o Hin. simpl in Hin.
        decompose [or] Hin; subst; try exact I; contradiction.
  - simpl. rewrite Hdata. repeat split.
    exists []. split; [unfold performed; now rewrite app_nil_r |].
    intros o [].
Qed.

(** ** Reset *)

(** C6.  A reset request, from [COMPLETE], from [ERROR] or from any
    other state, leaves the component in [IDLE] with an empty
    accumulator, an empty displayed transcript, an empty chat history,
    no error message and no [DreamData]. *)
Theorem reset_returns_to_idle :
  forall (w : World),
    let w' := resetState w in
    dreamState (app w') = IDLE
    /\ finalTranscriptRef (app w') = []
    /\ transcript (app w') = []
    /\ chatHistory (app w') = []
    /\ error (app w') = None
    /\ dreamData (app w') = None.
Proof.
  intros w w'. subst w'. unfold resetState. exec. repeat split.
Qed.

(** ** Starting a recording *)

(** C7.  Without the speech-recognition capability a start request
    performs exactly two operations: it sets the not-supported message
    and enters [ERROR].  It neither enters [RECORDING] nor starts the
    engine, and there is still no recognition handle afterwards. *)
Theorem start_without_capability_yields_error :
  forall (w : World),
    recognition w = None ->
    let w' := handleStartRecording w in
    dreamState (app w') = ERROR
    /\ error (app w') = Some msgNotSupported
    /\ recognition w' = None
    /\ exists ops,
         performed w w' ops
         /\ ~ In (SetDreamState RECORDING) ops
         /\ ~ In RecognitionStart ops
         /\ ops = [SetError (Some msgNotSupported); SetDreamState ERROR].
Proof.
  intros w H w'. subst w'. unfold handleStartRecording. rewrite H.
  split; [reflexivity |]. split; [reflexivity |]. split; [exec; exact H |].
  eexists. split; [| split; [| split; [| reflexivity]]].
  - unfold performed. exec. rewrite <- !app_assoc. reflexivity.
  - simpl. intros [Hin | [Hin | []]]; discriminate.
  - simpl. intros [Hin | [Hin | []]]; discriminate.
Qed.

Lemma start_without_capability_yields_error_witness :
  recognition (initialWorld false) = None
  /\ dreamState (app (handleStartRecording (initialWorld false))) = ERROR
  /\ error (app (handleStartRecording (initialWorld false)))
     = Some msgNotSupported.
Proof.
  split; [reflexivity |].
  destruct (start_without_capability_yields_error (initialWorld false) eq_refl)
    as (Hstate & Herror & _).
  split; [exact Hstate | exact Herror].
Defined.

Lemma deliverAll_after_start :
  forall w events,
    recognition w <> None ->
    finalTranscriptRef (app (deliverAll events (handleStartRecording w)))
      = finalizedSoFar events
    /\ transcript (app (deliverAll events (handleStartRecording w)))
       = match rev events with
         | [] => []
         | event :: _ => finalizedSoFar events ++ interimText event
         end.
Proof.
  intros w events H.
  pose proof (handleStartRecording_armed _ H) as Harmed.
  destruct (handleStartRecording_cleared _ H) as [Hshown Href].
  split.
  - destruct (deliverAll_accumulator events _ Harmed) as [_ E].
    now rewrite E, Href.
  - destruct events as [| event events] using rev_ind.
    + simpl. exact Hshown.
    + rewrite rev_app_distr. simpl.
      now rewrite (deliverAll_displayed _ _ _ Harmed), Href.
Qed.

(** C9.  With the capability available a start request performs, in
    this order: clear the displayed transcript, clear the accumulator,
    install the result handler, start the engine, enter [RECORDING].
    Both strings are therefore empty when the engine is started, and
    after any sequence of events of the new session the accumulator and
    the displayed transcript are the same as if the component had been
    in any other state before the start: they depend on those events
    alone. *)
Theorem start_clears_transcripts_before_listening :
  forall (w : World),
    recognition w <> None ->
    let w' := handleStartRecording w in
    performed w w'
      [SetTranscript []; WriteFinalTranscriptRef [];
       AssignOnresult AppOnResult; RecognitionStart; SetDreamState RECORDING]
    /\ transcript (app w') = []
    /\ finalTranscriptRef (app w') = []
    /\ dreamState (app w') = RECORDING
    /\ (forall events,
          finalTranscriptRef (app (deliverAll events w')) = finalizedSoFar events)
    /\ (forall (other : World) (events : list SpeechRecognitionEvent),
          recognition other <> None ->
          finalTranscriptRef (app (deliverAll events w'))
            = finalTranscriptRef
                (app (deliverAll events (handleStartRecording other)))
          /\ transcript (app (deliverAll events w'))
             = transcript
                 (app (deliverAll events (handleStartRecording other)))).
Proof.
  intros w H w'. subst w'.
  destruct (handleStartRecording_cleared _ H) as [Hshown Href].
  split.
  - rewrite handleStartRecording_available by exact H.
    unfold performed. exec. rewrite <- !app_assoc. reflexivity.
  - split; [exact Hshown |]. split; [exact Href |]. split.
    + rewrite handleStartRecording_available by exact H. reflexivity.
    + split.
      * intros events. apply (deliverAll_after_start w events H).
      * intros other events Hother.
        destruct (deliverAll_after_start w events H) as [E1 E2].
        destruct (deliverAll_after_start other events Hother) as [E3 E4].
        split; congruence.
Qed.

Lemma start_clears_transcripts_before_listening_witness :
  recognition Scenario.interpreted <> None
  /\ finalTranscriptRef (app Scenario.interpreted) = Scenario.flying
  /\ finalTranscriptRef (app (handleStartRecording Scenario.interpreted)) = []
  /\ transcript (app (handleStartRecording Scenario.interpreted)) = [].
Proof.
  assert (H : recognition Scenario.interpreted <> None) by discriminate.
  split; [exact H |]. split; [reflexivity |].
  destruct (start_clears_transcripts_before_listening Scenario.interpreted H)
    as (_ & Hshown & Href & _).
  split; [exact Href | exact Hshown].
Defined.

(** ** The event loop *)

Lemma analysesPending_app :
  forall ps1 ps2,
    analysesPending (ps1 ++ ps2) = analysesPending ps1 + analysesPending ps2.
Proof.
  induction ps1 as [| [k | k] ps1 IH]; intros ps2; simpl; rewrite ?IH; lia.
Qed.

Lemma deliver_frame :
  forall event w,
    dreamState (app (deliver event w)) = dreamState (app w)
    /\ dreamData (app (deliver event w)) = dreamData (app w).
Proof.
  intros event w. unfold deliver.
  destruct (recognition w) as [r |]; [| now split].
  destruct (onresult r) as [[] |]; [| now split].
  simpl invoke. rewrite onresultBody_eq. now split.
Qed.

Lemma handleStartRecording_frame :
  forall w,
    dreamData (app (handleStartRecording w)) = dreamData (app w)
    /\ (dreamState (app (handleStartRecording w)) = RECORDING
        \/ dreamState (app (handleStartRecording w)) = ERROR).
Proof.
  intros w. unfold handleStartRecording.
  destruct (recognition w); split; auto.
Qed.

Lemma handleStopRecording_continuation :
  forall w w' ft k,
    handleStopRecording w = AwaitAnalysis w' ft k ->
    analysisContinuation k
    /\ dreamState (app w') = ANALYZING
    /\ dreamData (app w') = dreamData (app w).
Proof.
  intros w w' ft k H. unfold handleStopRecording in H. fold stopPrefix in H.
  destruct (length _ <? 10); [discriminate |].
  inversion H; subst; clear H.
  destruct (stopPrefix_app w) as [Hdata _].
  split; [| split; [reflexivity | exact Hdata]].
  intros [result | e] w1 Hnull; [left | right]; exec; auto.
Qed.

Lemma handleSendMessage_continuation :
  forall render message w w' t i h k,
    handleSendMessage render message w = AwaitChat w' t i h k ->
    chatContinuation k
    /\ dreamState (app w') = dreamState (app w)
    /\ dreamData (app w') = dreamData (app w).
Proof.
  intros render message w w' t i h k H. unfold handleSendMessage in H.
  destruct (dreamData render); [| discriminate].
  inversion H; subst; clear H.
  split; [| split; reflexivity].
  intros [modelResponse | e] w1; split; reflexivity.
Qed.

Lemma turn_preserves_invariant :
  forall c c', turn c c' -> invariant c -> invariant c'.
Proof.
  intros c c' Hturn (Hdata & Hpending & Hcount).
  destruct Hturn as [[w ps] i Hoffered | [w ps] event
                     | w ps1 k ps2 settled | w ps1 k ps2 settled];
    unfold invariant in *; cbn [world pending] in *.
  - (* a user intent *)
    assert (Hidle : dreamState (app w) <> ANALYZING ->
                    analysesPending ps = 0) by (intros; tauto).
    destruct i; cbn [handle]; unfold offered in Hoffered;
      destruct (dreamState (app w)) eqn:Hstate; try discriminate.
    + destruct (handleStartRecording_frame w) as [Hd Hs].
      cbn [suspend world pending]. rewrite Hd.
      repeat split; auto.
      * intros _. apply Hdata. discriminate.
      * left. apply Hidle. discriminate.
    + destruct (handleStopRecording w) as [w' | w' ft k | w' t j h k] eqn:Hstop.
      * cbn [suspend world pending].
        assert (Hshort : length (trim (finalTranscriptRef (app w))) < 10).
        { apply Nat.ltb_lt. unfold handleStopRecording in Hstop.
          fold stopPrefix in Hstop.
          destruct (stopPrefix_app w) as [_ E]. rewrite E in Hstop.
          destruct (length _ <? 10); [reflexivity | discriminate]. }
        rewrite (handleStopRecording_short _ Hshort) in Hstop.
        inversion Hstop; subst; clear Hstop.
        destruct (stopPrefix_app w) as [E _].
        repeat split; auto.
        -- intros _. exec. rewrite E. apply Hdata. discriminate.
        -- left. apply Hidle. discriminate.
      * destruct (handleStopRecording_continuation _ _ _ _ Hstop)
          as (Hk & Hs & Hd).
        cbn [suspend world pending]. rewrite Hd, Hs, analysesPending_app.
        repeat split.
        -- intros _. apply Hdata. discriminate.
        -- apply Forall_app. split; [exact Hpending |].
           constructor; [exact Hk | constructor].
        -- right. rewrite Hidle by discriminate. now split.
      * unfold handleStopRecording in Hstop.
        destruct (length _ <? 10); discriminate.
    + cbn [suspend world pending]. unfold resetState. exec.
      repeat split; auto. left. apply Hidle. discriminate.
    + cbn [suspend world pending]. unfold resetState. exec.
      repeat split; auto. left. apply Hidle. discriminate.
    + destruct (dreamData (app w)) as [data |] eqn:Hd; [| discriminate].
      destruct (handleSendMessage_with_data (app w) (trim userInput) w data Hd)
        as (k & Hsend & _).
      destruct (handleSendMessage_continuation _ _ _ _ _ _ _ _ Hsend)
        as (Hk & Hs & Hd').
      unfold sendMessage. rewrite Hsend.
      cbn [suspend world pending]. rewrite Hd', Hs, analysesPending_app.
      repeat split.
      * intros Hne. congruence.
      * apply Forall_app. split; [exact Hpending |].
        constructor; [exact Hk | constructor].
      * left. simpl. rewrite Hidle by congruence. reflexivity.
  - (* a recognition event *)
    destruct (deliver_frame event w) as [Hs Hd]. rewrite Hs, Hd. auto.
  - (* the analysis call settles *)
    rewrite analysesPending_app in Hcount. simpl in Hcount.
    apply Forall_app in Hpending. destruct Hpending as [H1 H2].
    inversion H2 as [| p ps Hk H2']; subst.
    assert (Hstate : dreamState (app w) = ANALYZING) by (destruct Hcount; [lia | tauto]).
    assert (Hnull : dreamData (app w) = None)
      by (apply Hdata; rewrite Hstate; discriminate).
    rewrite analysesPending_app.
    repeat split.
    + destruct (Hk settled w Hnull) as [Hc | [He Hn]]; [congruence | auto].
    + apply Forall_app. now split.
    + left. lia.
  - (* a chat call settles *)
    rewrite analysesPending_app in Hcount. simpl in Hcount.
    apply Forall_app in Hpending. destruct Hpending as [H1 H2].
    inversion H2 as [| p ps Hk H2']; subst.
    destruct (Hk settled w) as [Hs Hd].
    rewrite Hs, Hd, analysesPending_app.
    repeat split; auto. apply Forall_app. now split.
Qed.

Lemma reachable_invariant :
  forall supported c, reachable supported c -> invariant c.
Proof.
  intros supported c H. induction H as [| c c' _ IH Hturn].
  - unfold invariant. simpl. repeat split; auto.
  - exact (turn_preserves_invariant _ _ Hturn IH).
Qed.

(** Whenever the user can ask to stop a recording, no [DreamData] is
    stored and no analysis call is in flight. *)
Lemma stop_offered_without_data :
  forall supported c,
    reachable supported c ->
    offered (app (world c)) StopRecording = true ->
    dreamData (app (world c)) = None /\ analysesPending (pending c) = 0.
Proof.
  intros supported c Hreach Hoffered.
  destruct (reachable_invariant _ _ Hreach) as (Hdata & _ & Hcount).
  unfold offered in Hoffered.
  destruct (dreamState (app (world c))) eqn:Hstate; try discriminate.
  split; [apply Hdata; discriminate |].
  destruct Hcount as [H0 | [_ H1]]; [exact H0 | discriminate].
Qed.

(** X22.  Without the capability the component never gets past [IDLE]
    and [ERROR]: no reachable configuration is recording, has a
    recognition handle or has a request in flight. *)
Lemma unsupported_never_records :
  forall c,
    reachable false c ->
    recognition (world c) = None
    /\ pending c = []
    /\ (dreamState (app (world c)) = IDLE \/ dreamState (app (world c)) = ERROR)
    /\ ~ In RecognitionStart (trace (world c))
    /\ ~ In (SetDreamState RECORDING) (trace (world c)).
Proof.
  intros c H. induction H as [| c c' _ IH Hturn].
  - simpl. repeat split; auto.
  - destruct IH as (Hrec & Hpend & Hstate & Hstart & Hrecording).
    destruct Hturn as [[w ps] i Hoffered | [w ps] event
                       | w ps1 k ps2 settled | w ps1 k ps2 settled];
      cbn [world pending] in *.
    + unfold offered in Hoffered.
      destruct Hstate as [Hs | Hs]; rewrite Hs in Hoffered;
        destruct i; try discriminate; cbn [handle suspend world pending].
      * unfold handleStartRecording. rewrite Hrec. exec.
        repeat split; auto; rewrite !in_app_iff; simpl;
          intuition discriminate.
      * unfold resetState. exec.
        repeat split; auto; rewrite !in_app_iff; simpl;
          intuition discriminate.
    + unfold deliver. rewrite Hrec. cbn [world pending]. auto.
    + destruct ps1; discriminate.
    + destruct ps1; discriminate.
Qed.

Lemma settle_resume :
  forall svc s, settle svc s = resume svc s (immediate s).
Proof.
  intros svc [w | w ft k | w t i h k]; reflexivity.
Qed.

(** X11.  The continuation of [handleStopRecording] stores the
    transcript it read before the call, whatever has happened to the
    accumulator while the call was in flight. *)
Lemma analysis_result_stored_at_any_resumption :
  forall w svc result later,
    10 <= length (trim (finalTranscriptRef (app w))) ->
    generateDreamAnalysis svc (trim (finalTranscriptRef (app w)))
      = Resolved result ->
    dreamState (app (resume svc (handleStopRecording w) later)) = COMPLETE
    /\ dreamData (app (resume svc (handleStopRecording w) later)) =
       Some {| Types.transcript := trim (finalTranscriptRef (app w));
               imageUrl := result_imageUrl result;
               interpretation := result_interpretation result |}.
Proof.
  intros w svc result later Hlen Hsvc.
  destruct (handleStopRecording_long _ Hlen) as (k & -> & Hok & _).
  cbn [resume]. rewrite Hsvc, Hok. now split.
Qed.

(** X12.  The continuation of [handleSendMessage] writes the history
    it built before the call followed by the model turn, whatever the
    history has become while the call was in flight, and changes nothing
    but the history and the loading flag. *)
Lemma chat_reply_appended_at_any_resumption :
  forall w data message svc later,
    dreamData (app w) = Some data ->
    let newHistory :=
      chatHistory (app w) ++ [ {| role := user; text := message |} ] in
    let w' := resume svc (sendMessage message w) later in
    chatHistory (app w') =
      newHistory ++
      [modelTurn (getChatResponse svc (Types.transcript data)
                    (interpretation data) newHistory)]
    /\ isChatLoading (app w') = false
    /\ dreamState (app w') = dreamState (app later)
    /\ dreamData (app w') = dreamData (app later).
Proof.
  intros w data message svc later Hdata newHistory w'. subst w'.
  unfold sendMessage.
  destruct (handleSendMessage_with_data (app w) message w data Hdata)
    as (k & -> & Hk).
  fold newHistory. cbn [resume]. rewrite Hk.
  destruct (getChatResponse svc _ _ _); repeat split.
Qed.

(** * Further properties *)

(** ** [String.prototype.trim] *)

Import DreamDisplay.

Lemma trimStart_app_kept :
  forall l c r,
    isWhiteSpace c = false -> trimStart (l ++ c :: r) = trimStart l ++ c :: r.
Proof.
  induction l as [| x l IH]; intros c r Hc; simpl.
  - now rewrite Hc.
  - destruct (isWhiteSpace x); [now apply IH | reflexivity].
Qed.

Lemma trimStart_head :
  forall s c t, trimStart s = c :: t -> isWhiteSpace c = false.
Proof.
  induction s as [| x s IH]; intros c t H; simpl in H; [discriminate |].
  destruct (isWhiteSpace x) eqn:Hx; [now apply IH with t |].
  now inversion H; subst.
Qed.

Lemma trimStart_fixed :
  forall c t, isWhiteSpace c = false -> trimStart (c :: t) = c :: t.
Proof.
  intros c t H. simpl. now rewrite H.
Qed.

Lemma trimStart_idempotent :
  forall s, trimStart (trimStart s) = trimStart s.
Proof.
  intros s. destruct (trimStart s) as [| c t] eqn:E; [reflexivity |].
  apply trimStart_fixed. now apply trimStart_head with s t.
Qed.

Lemma trimStart_suffix :
  forall s, exists p, s = p ++ trimStart s /\ forallb isWhiteSpace p = true.
Proof.
  induction s as [| x s (p & Hp & Hws)]; [now exists [] |].
  simpl. destruct (isWhiteSpace x) eqn:Hx.
  - exists (x :: p). simpl. rewrite Hx, Hws. split; [now f_equal | reflexivity].
  - now exists [].
Qed.

Lemma trimStart_nil :
  forall s, trimStart s = [] <-> forallb isWhiteSpace s = true.
Proof.
  induction s as [| x s IH]; simpl; [tauto |].
  destruct (isWhiteSpace x); simpl; [exact IH |].
  split; discriminate.
Qed.

(** The shape of a trimmed string: empty, or a first code unit that is
    not white space, followed by a rest whose reverse, once its own
    leading white space is dropped, is [u]. *)
Lemma trim_shape :
  forall s,
    trim s = []
    \/ exists c t,
         trimStart s = c :: t /\ isWhiteSpace c = false
         /\ trim s = c :: rev (trimStart (rev t)).
Proof.
  intros s. unfold trim, trimEnd.
  destruct (trimStart s) as [| c t] eqn:E; [now left | right].
  exists c, t. pose proof (trimStart_head _ _ _ E) as Hc.
  split; [reflexivity |]. split; [exact Hc |].
  simpl rev. rewrite trimStart_app_kept by exact Hc.
  rewrite rev_app_distr. reflexivity.
Qed.

Lemma trim_idempotent :
  forall s, trim (trim s) = trim s.
Proof.
  intros s. destruct (trim_shape s) as [E | (c & t & _ & Hc & E)];
    rewrite E; [reflexivity |].
  unfold trim, trimEnd. rewrite trimStart_fixed by exact Hc.
  simpl rev. rewrite rev_involutive.
  destruct (trimStart (rev t)) as [| d u] eqn:Eu.
  - simpl. now rewrite Hc.
  - rewrite <- app_comm_cons.
    rewrite trimStart_fixed by (now apply trimStart_head with (rev t) u).
    rewrite app_comm_cons, rev_app_distr. reflexivity.
Qed.

Lemma trim_nil :
  forall s, trim s = [] <-> forallb isWhiteSpace s = true.
Proof.
  intros s. rewrite <- trimStart_nil. split.
  - intros H. destruct (trim_shape s) as [_ | (c & t & _ & _ & E)];
      [| congruence].
    unfold trim, trimEnd in H.
    destruct (trimStart s) as [| c t] eqn:E; [reflexivity |].
    apply (f_equal (@rev N)) in H. rewrite rev_involutive in H. simpl in H.
    rewrite trimStart_app_kept in H by (now apply trimStart_head with s t).
    now destruct (trimStart (rev t)).
  - intros H. unfold trim, trimEnd. now rewrite H.
Qed.

Lemma trim_infix :
  forall s, exists p q, s = p ++ trim s ++ q.
Proof.
  intros s. destruct (trimStart_suffix s) as (p & Hp & _).
  destruct (trimStart_suffix (rev (trimStart s))) as (q & Hq & _).
  exists p, (rev q). unfold trim, trimEnd.
  rewrite <- rev_app_distr, <- Hq, rev_involutive. exact Hp.
Qed.

Lemma trim_incl :
  forall s c, In c (trim s) -> In c s.
Proof.
  intros s c H. destruct (trim_infix s) as (p & q & E). rewrite E.
  apply in_or_app. right. apply in_or_app. now left.
Qed.

Lemma trim_length :
  forall s, length (trim s) <= length s.
Proof.
  intros s. destruct (trim_infix s) as (p & q & E).
  rewrite E at 2. rewrite !length_app. lia.
Qed.

(** ** The interpretation and the input field of [DreamDisplay] *)

Lemma splitLines_nonempty :
  forall s, splitLines s <> [].
Proof.
  intros [| c s]; simpl; [discriminate |].
  destruct (N.eqb c newline); [discriminate |].
  destruct (splitLines s); discriminate.
Qed.

Lemma joinLines_cons :
  forall line lines,
    lines <> [] -> joinLines (line :: lines) = line ++ newline :: joinLines lines.
Proof.
  intros line [| l lines] H; [contradiction | reflexivity].
Qed.

Lemma joinLines_extend :
  forall c line lines,
    joinLines ((c :: line) :: lines) = c :: joinLines (line :: lines).
Proof.
  intros c line [| l lines]; reflexivity.
Qed.

(** Splitting a text at its line feeds loses nothing: there is one
    piece more than there are line feeds, no piece contains a line feed,
    and the pieces joined by line feeds are the text again. *)
Lemma splitLines_joinLines :
  forall (s : jsstring),
    joinLines (splitLines s) = s
    /\ length (splitLines s) = S (length (filter (N.eqb newline) s))
    /\ Forall (fun line => ~ In newline line) (splitLines s).
Proof.
  induction s as [| c s (Hjoin & Hlen & Hfree)].
  - simpl. repeat split. constructor; [tauto | constructor].
  - cbn [splitLines filter]. rewrite (N.eqb_sym newline c).
    destruct (N.eqb c newline) eqn:Hc.
    + apply N.eqb_eq in Hc. subst c.
      rewrite joinLines_cons by apply splitLines_nonempty.
      simpl. rewrite Hjoin, Hlen. repeat split.
      constructor; [tauto | exact Hfree].
    + pose proof (splitLines_nonempty s) as Hne.
      destruct (splitLines s) as [| line lines]; [contradiction |].
      cbv beta iota. rewrite joinLines_extend.
      split; [f_equal; exact Hjoin |]. split; [exact Hlen |].
      inversion Hfree as [| l ls Hline Hlines]; subst.
      constructor; [| exact Hlines].
      intros [E | Hin]; [| tauto].
      apply N.eqb_neq in Hc. congruence.
Qed.

(** Conversely, any non-empty list of lines without line feeds is
    what splitting their join gives back. *)
Lemma joinLines_splitLines :
  forall (lines : list jsstring),
    lines <> [] ->
    Forall (fun line => ~ In newline line) lines ->
    splitLines (joinLines lines) = lines.
Proof.
  induction lines as [| line lines IH]; intros Hne Hfree; [contradiction |].
  inversion Hfree as [| l ls Hline Hlines]; subst.
  destruct lines as [| line' lines].
  - clear IH Hfree Hlines Hne. simpl.
    induction line as [| c line IHl]; [reflexivity |].
    simpl. destruct (N.eqb c newline) eqn:Hc.
    + apply N.eqb_eq in Hc. subst c. exfalso. apply Hline. now left.
    + rewrite IHl; [reflexivity |]. intros Hin. apply Hline. now right.
  - rewrite joinLines_cons by discriminate.
    specialize (IH ltac:(discriminate) Hlines). clear Hfree Hne Hlines.
    induction line as [| c line IHl].
    + rewrite app_nil_l.
      change (splitLines (newline :: joinLines (line' :: lines)))
        with ([] :: splitLines (joinLines (line' :: lines))).
      exact (f_equal (cons []) IH).
    + rewrite <- app_comm_cons.
      cbn [splitLines]. destruct (N.eqb c newline) eqn:Hc.
      * apply N.eqb_eq in Hc. subst c. exfalso. apply Hline. now left.
      * rewrite IHl by (intros Hin; apply Hline; now right). reflexivity.
Qed.

Lemma startsWith_cons :
  forall p prefix s,
    startsWith (p :: prefix) s = true ->
    exists s', s = p :: s' /\ startsWith prefix s' = true.
Proof.
  intros p prefix [| c s] H; simpl in H; [discriminate |].
  apply andb_prop in H. destruct H as [Hc H].
  apply N.eqb_eq in Hc. subst c. eauto.
Qed.

(** The three prefix tests of the source amount to two. *)
Lemma isHeadingLine_iff :
  forall (line : jsstring),
    isHeadingLine line = true
    <-> exists rest,
          line = hash :: hash :: rest \/ line = hash :: 32%N :: rest.
Proof.
  intros line. unfold isHeadingLine.
  change (lit "###") with [hash; hash; hash].
  change (lit "##") with [hash; hash].
  change (lit "# ") with [hash; 32%N].
  split.
  - intros H. apply orb_prop in H. destruct H as [H | H];
      [apply orb_prop in H; destruct H as [H | H] |];
      apply startsWith_cons in H; destruct H as (s1 & -> & H);
      apply startsWith_cons in H; destruct H as (s2 & -> & H);
      exists s2; auto.
  - intros (rest & [E | E]); subst line.
    + apply orb_true_intro. left. apply orb_true_intro. right. reflexivity.
    + apply orb_true_intro. right. reflexivity.
Qed.

Lemma removeHashes_free :
  forall line, ~ In hash (removeHashes line).
Proof.
  intros line H. unfold removeHashes in H. apply filter_In in H.
  destruct H as [_ H]. now rewrite N.eqb_refl in H.
Qed.

(** X1.  A line is rendered as a heading exactly when it begins with
    two hashes or with a hash and a space (the separate test for three
    hashes adds nothing, and a single hash directly followed by text
    stays a paragraph).  A heading shows no hash anywhere, not only at
    its start, and no white space at either end; it is at least two
    code units shorter than its line.  A paragraph shows its line
    unchanged.  Either carries the index of its line as key. *)
Theorem renderLine_text :
  forall (index : nat) (line : jsstring),
    let marked :=
      exists rest,
        line = hash :: hash :: rest \/ line = hash :: 32%N :: rest in
    blockKey (renderLine index line) = index
    /\ match renderLine index line with
       | Heading _ headingText =>
           marked
           /\ ~ In hash headingText
           /\ trim headingText = headingText
           /\ (forall c, In c headingText -> In c line)
           /\ length headingText + 2 <= length line
       | Paragraph _ shown => ~ marked /\ shown = line
       end.
Proof.
  intros index line marked. subst marked. unfold renderLine.
  destruct (isHeadingLine line) eqn:H; simpl.
  - split; [reflexivity |]. split; [now apply isHeadingLine_iff |]. split.
    + intros Hin. apply trim_incl in Hin. exact (removeHashes_free _ Hin).
    + split; [apply trim_idempotent |]. split.
      * intros c Hin. apply trim_incl in Hin. unfold removeHashes in Hin.
        now apply filter_In in Hin.
      * apply isHeadingLine_iff in H.
        destruct H as (rest & [E | E]); subst line.
        -- change (removeHashes (hash :: hash :: rest))
             with (removeHashes rest).
           pose proof (trim_length (removeHashes rest)).
           pose proof (filter_length_le (fun c => negb (N.eqb c hash)) rest).
           unfold removeHashes in *. simpl length. lia.
        -- change (trim (removeHashes (hash :: 32%N :: rest)))
             with (trim (removeHashes rest)).
           pose proof (trim_length (removeHashes rest)).
           pose proof (filter_length_le (fun c => negb (N.eqb c hash)) rest).
           unfold removeHashes in *. simpl length. lia.
  - split; [reflexivity |]. split; [| reflexivity].
    intros Hmarked. apply isHeadingLine_iff in Hmarked. congruence.
Qed.

Lemma mapIndexed_length :
  forall (A B : Type) (f : nat -> A -> B) l index,
    length (mapIndexed f index l) = length l.
Proof.
  induction l as [| x l IH]; intros index; simpl; [reflexivity |].
  now rewrite IH.
Qed.

Lemma mapIndexed_keys :
  forall lines index,
    map blockKey (mapIndexed renderLine index lines)
    = List.seq index (length lines).
Proof.
  induction lines as [| line lines IH]; intros index; simpl; [reflexivity |].
  rewrite IH. f_equal. unfold renderLine.
  now destruct (isHeadingLine line).
Qed.

(** X2.  The interpretation is shown as one block per line, that is one
    more than it has line feeds (an empty interpretation is one empty
    paragraph), and the keys of the blocks count up from 0. *)
Theorem renderInterpretation_blocks :
  forall (interpretation : jsstring),
    length (renderInterpretation interpretation)
      = S (length (filter (N.eqb newline) interpretation))
    /\ map blockKey (renderInterpretation interpretation)
       = List.seq 0 (length (renderInterpretation interpretation)).
Proof.
  intros s. unfold renderInterpretation.
  rewrite mapIndexed_length, mapIndexed_keys.
  destruct (splitLines_joinLines s) as (_ & Hlen & _).
  now split.
Qed.

Lemma splitLines_incl :
  forall s line c, In line (splitLines s) -> In c line -> In c s.
Proof.
  induction s as [| x s IH]; intros line c Hline Hc; simpl in Hline.
  - destruct Hline as [E | []]. now subst line.
  - destruct (N.eqb x newline).
    + destruct Hline as [E | Hline]; [now subst line |].
      right. now apply IH with line.
    + destruct (splitLines s) as [| l ls] eqn:E.
      * destruct Hline as [<- | []]. destruct Hc as [<- | []]. now left.
      * destruct Hline as [<- | Hline].
        -- destruct Hc as [<- | Hc]; [now left |].
           right. apply IH with l; [now left | exact Hc].
        -- right. apply IH with line; [now right | exact Hc].
Qed.

Lemma mapIndexed_paragraphs :
  forall lines index,
    Forall (fun line => isHeadingLine line = false) lines ->
    map blockText (mapIndexed renderLine index lines) = lines
    /\ Forall (fun b => exists k line, b = Paragraph k line)
         (mapIndexed renderLine index lines).
Proof.
  induction lines as [| line lines IH]; intros index H; simpl.
  - split; constructor.
  - inversion H as [| l ls Hline Hlines]; subst.
    destruct (IH (S index) Hlines) as [Htext Hpar].
    unfold renderLine at 1 3. rewrite Hline. simpl. split.
    + exact (f_equal (cons line) Htext).
    + constructor; [eauto | exact Hpar].
Qed.

(** X3.  An interpretation without any hash is shown verbatim: every
    block is a paragraph, and the paragraphs joined by line feeds are
    the interpretation. *)
Theorem renderInterpretation_verbatim :
  forall (interpretation : jsstring),
    ~ In hash interpretation ->
    joinLines (map blockText (renderInterpretation interpretation))
      = interpretation
    /\ Forall (fun b => exists k line, b = Paragraph k line)
         (renderInterpretation interpretation).
Proof.
  intros s Hfree. unfold renderInterpretation.
  assert (H : Forall (fun line => isHeadingLine line = false) (splitLines s)).
  { apply Forall_forall. intros line Hline.
    destruct (isHeadingLine line) eqn:E; [| reflexivity].
    exfalso. apply Hfree. apply isHeadingLine_iff in E.
    destruct E as (rest & [E | E]); subst line;
      apply (splitLines_incl _ _ _ Hline); now left. }
  destruct (mapIndexed_paragraphs _ 0 H) as [Htext Hpar].
  split; [| exact Hpar].
  destruct (splitLines_joinLines s) as (Hjoin & _).
  rewrite <- Hjoin at 2. exact (f_equal joinLines Htext).
Qed.

Lemma renderInterpretation_verbatim_witness :
  ~ In hash (lit "You long for freedom.")
  /\ joinLines (map blockText (renderInterpretation (lit "You long for freedom.")))
     = lit "You long for freedom.".
Proof.
  assert (H : ~ In hash (lit "You long for freedom.")).
  { unfold hash. simpl. intuition discriminate. }
  split; [exact H |].
  exact (proj1 (renderInterpretation_verbatim _ H)).
Defined.

Lemma jsEqb_eq :
  forall s t, jsEqb s t = true <-> s = t.
Proof.
  induction s as [| c s IH]; intros [| d t]; simpl;
    try (split; [discriminate | discriminate]); [tauto |].
  rewrite andb_true_iff, N.eqb_eq, IH. split.
  - intros [-> ->]. reflexivity.
  - intros E. inversion E. tauto.
Qed.

(** X4.  [handleSend] passes something on exactly when the input is not
    all white space.  What it passes on is the trimmed input, which is
    then neither empty nor has white space at either end, and the input
    field is emptied; otherwise the field is left as it is. *)
Theorem handleSend_sends_trimmed :
  forall (userInput : jsstring),
    match handleSend userInput with
    | (Some message, field) =>
        forallb isWhiteSpace userInput = false
        /\ message = trim userInput
        /\ message <> []
        /\ trim message = message
        /\ field = []
    | (None, field) =>
        forallb isWhiteSpace userInput = true /\ field = userInput
    end.
Proof.
  intros u. unfold handleSend.
  destruct (trim u) as [| c t] eqn:E.
  - split; [now apply trim_nil | reflexivity].
  - repeat split; try discriminate.
    + destruct (forallb isWhiteSpace u) eqn:Hws; [| reflexivity].
      apply trim_nil in Hws. congruence.
    + rewrite <- E. apply trim_idempotent.
Qed.

(** X5.  The Enter key sends exactly when no chat call is loading and
    the input is not all white space; any other key sends nothing.  The
    send button does the same without the key.  Whenever nothing is
    sent the input field keeps its text. *)
Theorem send_controls :
  forall (key : jsstring) (loading : bool) (userInput : jsstring),
    (forall message field,
       handleKeyPress key loading userInput = (Some message, field)
       <-> key = lit "Enter" /\ loading = false /\ trim userInput <> []
           /\ message = trim userInput /\ field = [])
    /\ (forall message field,
          clickSend loading userInput = (Some message, field)
          <-> loading = false /\ trim userInput <> []
              /\ message = trim userInput /\ field = [])
    /\ (forall field,
          handleKeyPress key loading userInput = (None, field)
          \/ clickSend loading userInput = (None, field) ->
          field = userInput).
Proof.
  intros key loading u.
  assert (Hsend : forall message field,
             handleSend u = (Some message, field)
             <-> trim u <> [] /\ message = trim u /\ field = []).
  { intros message field. unfold handleSend.
    destruct (trim u) as [| c t]; split.
    - discriminate.
    - intros (H & _); contradiction.
    - intros E. inversion E. repeat split. discriminate.
    - intros (_ & -> & ->). reflexivity. }
  assert (Hnone : forall field, handleSend u = (None, field) -> field = u).
  { intros field. unfold handleSend.
    destruct (trim u); intros E; inversion E; reflexivity. }
  split; [| split].
  - intros message field. unfold handleKeyPress.
    destruct (jsEqb key (lit "Enter")) eqn:Hkey.
    + apply jsEqb_eq in Hkey. destruct loading; simpl.
      * split; [discriminate | intros (_ & H & _); discriminate].
      * rewrite Hsend. tauto.
    + simpl. split; [discriminate |].
      intros (H & _). apply jsEqb_eq in H. congruence.
  - intros message field. unfold clickSend. destruct loading.
    + split; [discriminate | intros (H & _); discriminate].
    + rewrite Hsend. tauto.
  - intros field. unfold handleKeyPress, clickSend.
    destruct (jsEqb key (lit "Enter")), loading; simpl;
      intros [H | H]; try (now inversion H); now apply Hnone.
Qed.

(** ** What each handler does to the observed part of the world *)

Ltac observed :=
  unfold observe, recognitionStart, recognitionStop; exec; rewrite ?analysisCalls_app; simpl analysisCalls;
  rewrite ?app_nil_r; try reflexivity.

Lemma observe_deliver :
  forall event w, observe (deliver event w) = observe w.
Proof.
  intros event w. unfold deliver.
  destruct (recognition w) as [r |]; [| reflexivity].
  destruct (onresult r) as [[] |]; [| reflexivity].
  simpl invoke. rewrite onresultBody_eq. observed.
Qed.

Lemma observe_resetState :
  forall w,
    observe (resetState w) =
    {| oState := IDLE; oData := None; oHistory := [];
       oLoading := isChatLoading (app w); oError := None;
       oRecognition := recognition w;
       oCalls := analysisCalls (trace w) |}.
Proof.
  intros w. unfold resetState. observed.
Qed.

Lemma observe_handleStartRecording :
  forall w,
    observe (handleStartRecording w) =
    match recognition w with
    | None =>
        {| oState := ERROR; oData := dreamData (app w);
           oHistory := chatHistory (app w);
           oLoading := isChatLoading (app w);
           oError := Some msgNotSupported;
           oRecognition := None;
           oCalls := analysisCalls (trace w) |}
    | Some r =>
        {| oState := RECORDING; oData := dreamData (app w);
           oHistory := chatHistory (app w);
           oLoading := isChatLoading (app w);
           oError := error (app w);
           oRecognition :=
             Some (mkRecognition (continuous r) (interimResults r)
                     (Some AppOnResult) true);
           oCalls := analysisCalls (trace w) |}
    end.
Proof.
  intros w. unfold handleStartRecording.
  destruct (recognition w) as [r |] eqn:Hr; observed; rewrite Hr; reflexivity.
Qed.

Lemma observe_stopPrefix :
  forall w,
    observe (stopPrefix w) =
    {| oState := ANALYZING; oData := dreamData (app w);
       oHistory := chatHistory (app w);
       oLoading := isChatLoading (app w);
       oError := error (app w);
       oRecognition := option_map stopped (recognition w);
       oCalls := analysisCalls (trace w) |}.
Proof.
  intros w. unfold stopPrefix, seq.
  destruct (recognition w) as [r |] eqn:Hr; observed; rewrite Hr; reflexivity.
Qed.

Lemma stop_short_observed :
  forall w,
    length (trim (finalTranscriptRef (app w))) < 10 ->
    exists w',
      handleStopRecording w = Finished w'
      /\ observe w' =
         {| oState := ERROR; oData := dreamData (app w);
            oHistory := chatHistory (app w);
            oLoading := isChatLoading (app w);
            oError := Some msgTooShort;
            oRecognition := option_map stopped (recognition w);
            oCalls := analysisCalls (trace w) |}.
Proof.
  intros w H. rewrite (handleStopRecording_short _ H).
  eexists. split; [reflexivity |].
  pose proof (observe_stopPrefix w) as E. unfold observe in E.
  injection E; intros.
  observed. congruence.
Qed.

Lemma trim_requestOk :
  forall s, 10 <= length (trim s) -> requestOk (trim s).
Proof.
  intros s H. split; [exact H | apply trim_idempotent].
Qed.

Lemma stop_long_observed :
  forall w,
    10 <= length (trim (finalTranscriptRef (app w))) ->
    exists w' k,
      handleStopRecording w =
        AwaitAnalysis w' (trim (finalTranscriptRef (app w))) k
      /\ observe w' =
         {| oState := ANALYZING; oData := dreamData (app w);
            oHistory := chatHistory (app w);
            oLoading := isChatLoading (app w);
            oError := error (app w);
            oRecognition := option_map stopped (recognition w);
            oCalls := analysisCalls (trace w)
                        ++ [trim (finalTranscriptRef (app w))] |}
      /\ analysisInFlight k.
Proof.
  intros w H.
  destruct (handleStopRecording_long _ H) as (k & -> & Hok & Hko).
  eexists. exists k. split; [reflexivity |]. split.
  - pose proof (observe_stopPrefix w) as E. unfold observe in E.
    injection E; intros.
    observed. congruence.
  - intros [result | e] w1.
    + left. eexists. rewrite Hok. split; [| observed].
      now apply trim_requestOk.
    + right. rewrite Hko. observed.
Qed.

Lemma send_observed :
  forall w data message,
    dreamData (app w) = Some data ->
    exists w' t i h k,
      sendMessage message w = AwaitChat w' t i h k
      /\ observe w' =
         {| oState := dreamState (app w); oData := dreamData (app w);
            oHistory := chatHistory (app w)
                          ++ [ {| role := user; text := message |} ];
            oLoading := true;
            oError := error (app w);
            oRecognition := recognition w;
            oCalls := analysisCalls (trace w) |}
      /\ forall settled w1,
           observe (k settled w1) =
           {| oState := dreamState (app w1); oData := dreamData (app w1);
              oHistory := chatHistory (app w)
                            ++ [ {| role := user; text := message |};
                                 modelTurn settled ];
              oLoading := false;
              oError := error (app w1);
              oRecognition := recognition w1;
              oCalls := analysisCalls (trace w1) |}.
Proof.
  intros w data message Hdata. unfold sendMessage.
  destruct (handleSendMessage_with_data (app w) message w data Hdata)
    as (k & -> & Hk).
  do 4 eexists. exists k. split; [reflexivity |]. split; [observed |].
  intros settled w1. rewrite Hk.
  destruct settled; observed; now rewrite <- app_assoc.
Qed.

(** ** The invariant of the event loop *)

Lemma chatsPending_app :
  forall ps1 ps2,
    chatsPending (ps1 ++ ps2) = chatsPending ps1 + chatsPending ps2.
Proof.
  induction ps1 as [| [k | k] ps1 IH]; intros ps2; simpl; rewrite ?IH; lia.
Qed.

Lemma inFlight_history :
  forall o o' ps,
    oHistory o' = oHistory o \/ oHistory o' = [] ->
    Forall (inFlight o) ps -> Forall (inFlight o') ps.
Proof.
  intros o o' ps Hh H. induction H as [| p ps Hp _ IH]; constructor; auto.
  destruct p as [k | k]; [exact Hp |].
  destruct Hp as (h & m & Hconv & Hm & Hnow & Hk).
  exists h, m. split; [exact Hconv |]. split; [exact Hm |].
  split; [| exact Hk].
  destruct Hh as [E | E]; [rewrite E; exact Hnow | now right].
Qed.

Lemma inFlight_no_chat :
  forall o o' ps,
    chatsPending ps = 0 ->
    Forall (inFlight o) ps -> Forall (inFlight o') ps.
Proof.
  intros o o' ps Hc H. induction H as [| p ps Hp _ IH]; constructor.
  - destruct p as [k | k]; [exact Hp | discriminate].
  - apply IH. destruct p; simpl in Hc; [exact Hc | discriminate].
Qed.

Lemma conversation_modelTurn :
  forall h message settled,
    conversation h -> sendable message ->
    conversation (h ++ [ {| role := user; text := message |};
                         modelTurn settled ]).
Proof.
  intros h message [reply | e] Hh Hm; now constructor.
Qed.

Ltac fields :=
  cbn [oState oData oHistory oLoading oError oRecognition oCalls] in *.

Ltac routine :=
  try solve [ assumption
            | intuition (try congruence; try discriminate; try lia) ].

Lemma initial_maintained :
  forall supported, maintained (mkConfig (initialWorld supported) []).
Proof.
  intros supported. unfold maintained. cbn [world pending].
  constructor; unfold observe, engineListening; simpl; routine.
  - intros _. constructor.
  - constructor.
  - destruct supported; simpl; split; try discriminate;
      intros (r & E & H); inversion E; subst; discriminate.
  - destruct supported; simpl; intros r E H; inversion E; subst; discriminate.
  - constructor.
Qed.


Lemma start_maintains :
  forall w ps,
    Maintained (observe w) ps ->
    dreamState (app w) = IDLE ->
    Maintained (observe (handleStartRecording w)) ps.
Proof.
  intros w ps [] Hidle. rewrite observe_handleStartRecording.
  unfold observe, engineListening in *. fields.
  destruct (recognition w) as [r |] eqn:Hr;
    constructor; unfold engineListening; fields; routine.
  - split; [intros _; eexists; split; reflexivity | reflexivity].
  - intros r0 E _. inversion E. reflexivity.
Qed.

Lemma reset_maintains :
  forall w ps,
    Maintained (observe w) ps ->
    dreamState (app w) = COMPLETE \/ dreamState (app w) = ERROR ->
    Maintained (observe (resetState w)) ps.
Proof.
  intros w ps M Hstate. rewrite observe_resetState.
  pose proof (pending_in_flight _ _ M) as Hps.
  destruct M. unfold observe, engineListening in *. fields.
  constructor; unfold engineListening; fields; routine.
  - intros _. constructor.
  - apply inFlight_history with (2 := Hps). now right.
Qed.

Lemma stop_maintains :
  forall w ps,
    Maintained (observe w) ps ->
    dreamState (app w) = RECORDING ->
    maintained (suspend (handleStopRecording w) ps).
Proof.
  intros w ps M Hstate. unfold maintained.
  pose proof (pending_in_flight _ _ M) as Hps.
  destruct (Nat.lt_ge_cases (length (trim (finalTranscriptRef (app w)))) 10)
    as [Hshort | Hlong].
  - destruct (stop_short_observed _ Hshort) as (w' & -> & Hobs).
    cbn [suspend world pending]. rewrite Hobs. clear Hobs.
    destruct M. unfold observe, engineListening in *. fields.
    constructor; unfold engineListening; fields; routine.
    + split; [discriminate |].
      intros (r & E & Hl). destruct (recognition w); inversion E; subst.
      discriminate.
    + intros r E Hl. destruct (recognition w); inversion E; subst.
      discriminate.
  - destruct (stop_long_observed _ Hlong) as (w' & k & -> & Hobs & Hk).
    cbn [suspend world pending]. rewrite Hobs. clear Hobs.
    destruct M. unfold observe, engineListening in *. fields.
    assert (Hnone : analysesPending ps = 0).
    { destruct (Nat.eq_dec (analysesPending ps) 1) as [E | E]; [| lia].
      apply analysis_iff_analyzing0 in E. congruence. }
    constructor; unfold engineListening; fields;
      rewrite ?analysesPending_app, ?chatsPending_app; simpl;
      rewrite ?Nat.add_0_r; routine.
    + apply Forall_app. split; [exact Hps |]. constructor; [exact Hk | constructor].
    + split; [discriminate |].
      intros (r & E & Hl). destruct (recognition w); inversion E; subst.
      discriminate.
    + intros r E Hl. destruct (recognition w); inversion E; subst.
      discriminate.
    + apply Forall_app. split; [assumption |].
      constructor; [now apply trim_requestOk | constructor].
Qed.

Lemma send_maintains :
  forall w ps userInput,
    Maintained (observe w) ps ->
    offered (app w) (Send userInput) = true ->
    maintained (suspend (sendMessage (trim userInput) w) ps).
Proof.
  intros w ps u M Hoffered. unfold maintained.
  pose proof (pending_in_flight _ _ M) as Hps.
  unfold offered in Hoffered.
  destruct (dreamState (app w)) eqn:Hstate; try discriminate.
  destruct (dreamData (app w)) as [data |] eqn:Hdata; [| discriminate].
  destruct (isChatLoading (app w)) eqn:Hloading; [discriminate |].
  simpl in Hoffered. apply negb_true_iff, Nat.eqb_neq in Hoffered.
  assert (Hm : sendable (trim u)).
  { split; [| apply trim_idempotent].
    intros E. apply Hoffered. now rewrite E. }
  destruct (send_observed w data (trim u) Hdata)
    as (w' & t & i & h & k & -> & Hobs & Hk).
  cbn [suspend world pending]. rewrite Hobs. clear Hobs.
  destruct M. unfold observe, engineListening in *. fields.
  rewrite Hstate, Hdata, Hloading in *.
  assert (Hnone : chatsPending ps = 0).
  { destruct (Nat.eq_dec (chatsPending ps) 1) as [E | E]; [| lia].
    apply chat_iff_loading0 in E. discriminate. }
  constructor; unfold engineListening; fields;
    rewrite ?analysesPending_app, ?chatsPending_app; simpl;
    rewrite ?Nat.add_0_r; routine.
  apply Forall_app. split.
  - apply inFlight_no_chat with (2 := Hps). exact Hnone.
  - constructor; [| constructor].
    exists (chatHistory (app w)), (trim u).
    split; [now apply history_conversation0 |]. split; [exact Hm |].
    split; [now left |]. intros settled w1. exact (Hk settled w1).
Qed.

Lemma analysis_settled_maintains :
  forall w ps1 k ps2 settled,
    Maintained (observe w) (ps1 ++ PendingAnalysis k :: ps2) ->
    Maintained (observe (k settled w)) (ps1 ++ ps2).
Proof.
  intros w ps1 k ps2 settled M.
  pose proof (pending_in_flight _ _ M) as Hps.
  apply Forall_app in Hps. destruct Hps as [Hps1 Hps2].
  inversion Hps2 as [| p ps Hk Hps2']; subst. simpl in Hk.
  destruct M. unfold observe, engineListening in *. fields.
  rewrite analysesPending_app, chatsPending_app in *. simpl in *.
  assert (Hstate : dreamState (app w) = ANALYZING)
    by (apply analysis_iff_analyzing0; lia).
  assert (Hdata : dreamData (app w) = None).
  { destruct (dreamData (app w)); [| reflexivity].
    assert (dreamState (app w) = COMPLETE)
      by (apply data_iff_complete0; discriminate).
    congruence. }
  assert (Herror : error (app w) = None).
  { destruct (error (app w)); [| reflexivity].
    assert (dreamState (app w) = ERROR)
      by (apply error_iff_error0; discriminate).
    congruence. }
  assert (Hall : Forall
                   (inFlight
                      {| oState := dreamState (app w);
                         oData := dreamData (app w);
                         oHistory := chatHistory (app w);
                         oLoading := isChatLoading (app w);
                         oError := error (app w);
                         oRecognition := recognition w;
                         oCalls := analysisCalls (trace w) |})
                   (ps1 ++ ps2)) by (apply Forall_app; now split).
  rewrite Hstate, Hdata, Herror in *.
  destruct (Hk settled w) as [(data & Hok & Hobs) | Hobs];
    unfold observe in Hobs; rewrite Hobs; clear Hobs;
    rewrite ?Hdata, ?Herror;
    constructor; unfold engineListening; fields;
    rewrite ?analysesPending_app, ?chatsPending_app; routine.
Qed.

Lemma chat_settled_maintains :
  forall w ps1 k ps2 settled,
    Maintained (observe w) (ps1 ++ PendingChat k :: ps2) ->
    Maintained (observe (k settled w)) (ps1 ++ ps2).
Proof.
  intros w ps1 k ps2 settled M.
  pose proof (pending_in_flight _ _ M) as Hps.
  apply Forall_app in Hps. destruct Hps as [Hps1 Hps2].
  inversion Hps2 as [| p ps Hk Hps2']; subst. simpl in Hk.
  destruct Hk as (h & m & Hconv & Hm & _ & Hk).
  destruct M. unfold observe, engineListening in *. fields.
  rewrite analysesPending_app, chatsPending_app in *. simpl in *.
  assert (Hnone : chatsPending ps1 + chatsPending ps2 = 0) by lia.
  rewrite Hk.
  constructor; unfold engineListening; fields;
    rewrite ?analysesPending_app, ?chatsPending_app; try assumption.
  - lia.
  - split; [discriminate | lia].
  - intros _. now apply conversation_modelTurn.
  - apply inFlight_no_chat
      with (o := {| oState := dreamState (app w);
                    oData := dreamData (app w);
                    oHistory := chatHistory (app w);
                    oLoading := isChatLoading (app w);
                    oError := error (app w);
                    oRecognition := recognition w;
                    oCalls := analysisCalls (trace w) |}).
    + now rewrite chatsPending_app.
    + apply Forall_app. now split.
Qed.

Lemma turn_maintains :
  forall c c', turn c c' -> maintained c -> maintained c'.
Proof.
  intros c c' Hturn M.
  destruct Hturn as [[w ps] i Hoffered | [w ps] event
                     | w ps1 k ps2 settled | w ps1 k ps2 settled];
    unfold maintained in *; cbn [world pending] in *.
  - destruct i; cbn [handle].
    + cbn [suspend world pending]. apply start_maintains; [exact M |].
      unfold offered in Hoffered.
      destruct (dreamState (app w)); (reflexivity || discriminate).
    + apply stop_maintains; [exact M |].
      unfold offered in Hoffered.
      destruct (dreamState (app w)); (reflexivity || discriminate).
    + cbn [suspend world pending]. apply reset_maintains; [exact M |].
      unfold offered in Hoffered.
      destruct (dreamState (app w)); try discriminate. now left.
    + cbn [suspend world pending]. apply reset_maintains; [exact M |].
      unfold offered in Hoffered.
      destruct (dreamState (app w)); try discriminate. now right.
    + now apply send_maintains.
  - now rewrite observe_deliver.
  - now apply analysis_settled_maintains.
  - now apply chat_settled_maintains.
Qed.

Lemma reachable_maintained :
  forall supported c, reachable supported c -> maintained c.
Proof.
  intros supported c H. induction H as [| c c' _ IH Hturn].
  - apply initial_maintained.
  - exact (turn_maintains _ _ Hturn IH).
Qed.

(** ** Recognition events *)

Lemma deliver_accumulator :
  forall event w,
    exists added,
      finalTranscriptRef (app (deliver event w))
      = finalTranscriptRef (app w) ++ added.
Proof.
  intros event w. unfold deliver.
  destruct (recognition w) as [r |];
    [| exists []; now rewrite app_nil_r].
  destruct (onresult r) as [[] |];
    [| exists []; now rewrite app_nil_r].
  simpl invoke. rewrite onresultBody_eq. now exists (finalText event).
Qed.

Lemma observe_deliverAll :
  forall events w, observe (deliverAll events w) = observe w.
Proof.
  intros events. induction events as [| event events IH] using rev_ind;
    intros w; [reflexivity |].
  now rewrite deliverAll_snoc, observe_deliver.
Qed.

(** X6.  Recognition events, however many and whether or not a handler
    is installed, change nothing but the two transcript strings: the
    state, the stored [DreamData], the chat history, the loading flag,
    the error, the recognition handle and the calls made to the analysis
    service stay as they were.  The accumulator is never rewritten: what
    it held before is a prefix of what it holds after. *)
Theorem events_only_extend_accumulator :
  forall (w : World) (events : list SpeechRecognitionEvent),
    observe (deliverAll events w) = observe w
    /\ exists added,
         finalTranscriptRef (app (deliverAll events w))
         = finalTranscriptRef (app w) ++ added.
Proof.
  intros w events. split; [apply observe_deliverAll |].
  induction events as [| event events (added & Hacc)] using rev_ind.
  - exists []. simpl. now rewrite app_nil_r.
  - rewrite deliverAll_snoc.
    destruct (deliver_accumulator event (deliverAll events w))
      as (more & Hmore).
    exists (added ++ more). now rewrite Hmore, Hacc, app_assoc.
Qed.

(** X7.  An event whose resume index is at or past the end of its
    result list has no new segment: the accumulator is unchanged, and
    the displayed transcript falls back to the accumulator, dropping the
    interim text shown before. *)
Theorem event_without_new_segments :
  forall (w : World) (event : SpeechRecognitionEvent),
    armed w ->
    length (results event) <= resultIndex event ->
    finalTranscriptRef (app (deliver event w)) = finalTranscriptRef (app w)
    /\ transcript (app (deliver event w)) = finalTranscriptRef (app w).
Proof.
  intros w event Harmed Hindex.
  rewrite (deliver_armed _ _ Harmed), onresultBody_eq.
  assert (Hnone : newSegments event = []).
  { unfold newSegments. now apply skipn_all2. }
  unfold finalText, interimText. rewrite Hnone. simpl.
  now rewrite !app_nil_r.
Qed.

Lemma event_without_new_segments_witness :
  let w := deliver (mkEvent 0 [mkResult (lit "I was") false])
             (Scenario.recorded (lit "Hello. ")) in
  let event := mkEvent 3 [mkResult (lit "Hello. ") true] in
  armed w
  /\ length (results event) <= resultIndex event
  /\ transcript (app w) = lit "Hello. I was"
  /\ transcript (app (deliver event w)) = lit "Hello. ".
Proof.
  intros w event.
  assert (Harmed : armed w) by (eexists; split; reflexivity).
  assert (Hindex : length (results event) <= resultIndex event)
    by (simpl; lia).
  split; [exact Harmed |]. split; [exact Hindex |]. split; [reflexivity |].
  exact (proj2 (event_without_new_segments w event Harmed Hindex)).
Defined.

Lemma finalText_all_interim :
  forall event,
    (forall r, In r (newSegments event) -> isFinal r = false) ->
    finalText event = [].
Proof.
  intros event H. unfold finalText.
  induction (newSegments event) as [| r rs IH]; [reflexivity |].
  simpl. rewrite (H r (or_introl eq_refl)). apply IH.
  intros r' Hr'. apply H. now right.
Qed.

(** X8.  Speech that the engine never finalized is not analysed.  If
    no new segment of any event of a recording is final, then, whatever
    the recorder displays, a stop request ends in [ERROR] with the
    short-transcript message and without a call to the analysis
    service. *)
Theorem unfinalized_speech_is_not_analysed :
  forall (w : World) (events : list SpeechRecognitionEvent),
    recognition w <> None ->
    (forall event r,
       In event events -> In r (newSegments event) -> isFinal r = false) ->
    exists w',
      handleStopRecording (deliverAll events (handleStartRecording w))
        = Finished w'
      /\ renderContent (app w') = ErrorView (Some msgTooShort)
      /\ analysisCalls (trace w') = analysisCalls (trace w).
Proof.
  intros w events Hrec Hinterim.
  destruct (deliverAll_after_start w events Hrec) as [Href _].
  assert (Hnone : finalizedSoFar events = []).
  { unfold finalizedSoFar. clear Href.
    induction events as [| event events IH]; [reflexivity |].
    simpl. rewrite finalText_all_interim.
    - apply IH. intros e r He. apply Hinterim. now right.
    - intros r. apply Hinterim. now left. }
  rewrite Hnone in Href.
  assert (Hshort :
            length (trim (finalTranscriptRef
                            (app (deliverAll events (handleStartRecording w)))))
            < 10) by (rewrite Href; simpl; lia).
  destruct (stop_short_observed _ Hshort) as (w' & Hstop & Hobs).
  exists w'. split; [exact Hstop |].
  unfold observe in Hobs. injection Hobs as Hs Hd Hh Hl He Hr Hc.
  unfold renderContent. rewrite Hs, He. split; [reflexivity |].
  rewrite Hc.
  pose proof (observe_deliverAll events (handleStartRecording w)) as Hsame.
  apply (f_equal oCalls) in Hsame. simpl in Hsame. rewrite Hsame.
  rewrite handleStartRecording_available by exact Hrec.
  exec. rewrite !analysisCalls_app. simpl. now rewrite !app_nil_r.
Qed.

Lemma unfinalized_speech_is_not_analysed_witness :
  let spoken := mkEvent 0 [mkResult Scenario.flying false] in
  let w := deliverAll [spoken] (handleStartRecording (initialWorld true)) in
  recognition (initialWorld true) <> None
  /\ (forall event r,
        In event [spoken] -> In r (newSegments event) -> isFinal r = false)
  /\ transcript (app w) = Scenario.flying
  /\ exists w',
       handleStopRecording w = Finished w'
       /\ renderContent (app w') = ErrorView (Some msgTooShort)
       /\ analysisCalls (trace w') = analysisCalls (trace (initialWorld true)).
Proof.
  intros spoken w.
  assert (Hrec : recognition (initialWorld true) <> None) by discriminate.
  assert (Hinterim : forall event r,
             In event [spoken] -> In r (newSegments event) ->
             isFinal r = false).
  { intros event r [<- | []] [<- | []]. reflexivity. }
  split; [exact Hrec |]. split; [exact Hinterim |]. split; [reflexivity |].
  exact (unfinalized_speech_is_not_analysed
           (initialWorld true) [spoken] Hrec Hinterim).
Defined.

(** ** A whole recording *)

(** X9.  What a recording shows at its end is decided by the
    finalized segments alone.  When their concatenation, trimmed, has at
    least 10 code units, stopping calls the analysis service with
    exactly that string; if the call is fulfilled the result view is
    rendered with that string as transcript and the returned image and
    interpretation, and if it is rejected the error view is rendered
    with the analysis-failure message. *)
Theorem recording_session_outcome :
  forall (w : World) (events : list SpeechRecognitionEvent) (svc : Services),
    recognition w <> None ->
    10 <= length (trim (finalizedSoFar events)) ->
    let said := trim (finalizedSoFar events) in
    let w' := settle svc
                (handleStopRecording
                   (deliverAll events (handleStartRecording w))) in
    renderContent (app w') =
      match generateDreamAnalysis svc said with
      | Resolved result =>
          DreamDisplayView
            {| Types.transcript := said;
               imageUrl := result_imageUrl result;
               interpretation := result_interpretation result |}
            (chatHistory (app w)) (isChatLoading (app w))
      | Rejected _ => ErrorView (Some msgAnalysisFailed)
      end
    /\ analysisCalls (trace w') = analysisCalls (trace w) ++ [said].
Proof.
  intros w events svc Hrec Hlen said w'. subst said w'.
  destruct (deliverAll_after_start w events Hrec) as [Href _].
  set (recorded := deliverAll events (handleStartRecording w)) in *.
  rewrite <- Href in *.
  rewrite (settle_handleStopRecording_long _ svc Hlen).
  pose proof (observe_stopPrefix recorded) as Hstop.
  pose proof (observe_deliverAll events (handleStartRecording w)) as Hsame.
  fold recorded in Hsame.
  pose proof (observe_handleStartRecording w) as Hstart.
  destruct (recognition w) as [r |] eqn:Hr; [| contradiction].
  rewrite Hstart in Hsame. clear Hstart.
  pose proof (f_equal oHistory Hsame) as Hh.
  pose proof (f_equal oLoading Hsame) as Hl.
  pose proof (f_equal oCalls Hsame) as Hc.
  pose proof (f_equal oHistory Hstop) as Hh'.
  pose proof (f_equal oLoading Hstop) as Hl'.
  pose proof (f_equal oCalls Hstop) as Hc'.
  cbn [observe oHistory oLoading oCalls] in Hh, Hl, Hc, Hh', Hl', Hc'.
  destruct (generateDreamAnalysis svc _) as [result | e];
    unfold renderContent; exec;
    rewrite ?analysisCalls_app, ?Hh', ?Hl', ?Hc', ?Hh, ?Hl, ?Hc; simpl;
    rewrite ?app_nil_r; split; reflexivity.
Qed.

Lemma recording_session_outcome_witness :
  let events := [mkEvent 0 [mkResult (lit "  I was flying ") true;
                            mkResult (lit "ovr") false];
                 mkEvent 1 [mkResult (lit "  I was flying ") true;
                            mkResult (lit "over a purple ocean. ") true]] in
  recognition (initialWorld true) <> None
  /\ 10 <= length (trim (finalizedSoFar events))
  /\ renderContent
       (app (settle Scenario.servicesUp
               (handleStopRecording
                  (deliverAll events
                     (handleStartRecording (initialWorld true))))))
     = DreamDisplayView
         {| Types.transcript := lit "I was flying over a purple ocean.";
            imageUrl := lit "http://x/img.png";
            interpretation := lit "..." |} [] false.
Proof.
  intros events.
  assert (Hrec : recognition (initialWorld true) <> None) by discriminate.
  assert (Hlen : 10 <= length (trim (finalizedSoFar events)))
    by (vm_compute; lia).
  split; [exact Hrec |]. split; [exact Hlen |].
  exact (proj1 (recording_session_outcome
                  (initialWorld true) events Scenario.servicesUp Hrec Hlen)).
Defined.

(** ** Reset *)

(** X10.  A reset performs six operations, all of them state setters or
    the write to the accumulator: it neither stops the engine nor
    touches the recognition handle, and it leaves the chat-loading flag
    as it is.  So the component is back in its initial state exactly
    when no chat call was loading. *)
Theorem resetState_frame :
  forall (w : World),
    performed w (resetState w)
      [SetDreamState IDLE; SetDreamData None; SetChatHistory [];
       SetError None; SetTranscript []; WriteFinalTranscriptRef []]
    /\ recognition (resetState w) = recognition w
    /\ isChatLoading (app (resetState w)) = isChatLoading (app w)
    /\ (app (resetState w) = initialState <-> isChatLoading (app w) = false).
Proof.
  intros w. unfold resetState, performed. exec.
  rewrite <- !app_assoc. repeat split.
  - intros E. now inversion E.
  - intros E. unfold initialState. now rewrite E.
Qed.

(** ** Requests that settle late *)

Lemma analysis_result_stored_at_any_resumption_witness :
  let w := Scenario.recorded Scenario.flying in
  let late := mkEvent 1 [mkResult Scenario.flying true;
                         mkResult (lit " The end.") true] in
  let later := deliver late (immediate (handleStopRecording w)) in
  10 <= length (trim (finalTranscriptRef (app w)))
  /\ generateDreamAnalysis Scenario.servicesUp
       (trim (finalTranscriptRef (app w))) = Resolved Scenario.picture
  /\ finalTranscriptRef (app later) = Scenario.flying ++ lit " The end."
  /\ option_map Types.transcript
       (dreamData (app (resume Scenario.servicesUp
                          (handleStopRecording w) later)))
     = Some Scenario.flying.
Proof.
  intros w late later.
  assert (Hlen : 10 <= length (trim (finalTranscriptRef (app w))))
    by (vm_compute; lia).
  split; [exact Hlen |]. split; [reflexivity |]. split; [reflexivity |].
  destruct (analysis_result_stored_at_any_resumption
              w Scenario.servicesUp Scenario.picture later Hlen eq_refl)
    as [_ Hdata].
  rewrite Hdata. reflexivity.
Defined.

Lemma chat_reply_appended_at_any_resumption_witness :
  let w := Scenario.interpreted in
  let asked := sendMessage (lit "Why purple?") w in
  let later := resetState (immediate asked) in
  dreamData (app w)
    = Some {| Types.transcript := Scenario.flying;
              imageUrl := lit "http://x/img.png";
              interpretation := lit "..." |}
  /\ chatHistory (app later) = []
  /\ dreamState (app (resume Scenario.servicesUp asked later)) = IDLE
  /\ chatHistory (app (resume Scenario.servicesUp asked later))
     = [ {| role := user; text := lit "Why purple?" |};
         {| role := model; text := lit "The ocean is calm." |} ].
Proof.
  intros w asked later.
  split; [reflexivity |]. split; [reflexivity |].
  destruct (chat_reply_appended_at_any_resumption
              w _ (lit "Why purple?") Scenario.servicesUp later eq_refl)
    as (Hhistory & _ & Hstate & _).
  split; [exact Hstate | exact Hhistory].
Defined.

(** ** Stopping *)

(** X13.  A stop request never touches the displayed transcript, the
    accumulator, the chat history or the loading flag, neither before
    nor after the analysis call settles, and it leaves the engine, if
    there is one, not listening. *)
Theorem handleStopRecording_frame :
  forall (w : World) (svc : Services),
    let kept (w' : World) :=
      transcript (app w') = transcript (app w)
      /\ finalTranscriptRef (app w') = finalTranscriptRef (app w)
      /\ chatHistory (app w') = chatHistory (app w)
      /\ isChatLoading (app w') = isChatLoading (app w)
      /\ recognition w' = option_map stopped (recognition w) in
    kept (immediate (handleStopRecording w))
    /\ kept (settle svc (handleStopRecording w)).
Proof.
  intros w svc kept. subst kept.
  assert (Hprefix :
            transcript (app (stopPrefix w)) = transcript (app w)
            /\ finalTranscriptRef (app (stopPrefix w))
               = finalTranscriptRef (app w)
            /\ chatHistory (app (stopPrefix w)) = chatHistory (app w)
            /\ isChatLoading (app (stopPrefix w)) = isChatLoading (app w)
            /\ recognition (stopPrefix w)
               = option_map stopped (recognition w)).
  { unfold stopPrefix, seq.
    destruct (recognition w) as [r |] eqn:Hr;
      unfold recognitionStop; exec; rewrite ?Hr; repeat split. }
  destruct (Nat.lt_ge_cases (length (trim (finalTranscriptRef (app w)))) 10)
    as [Hshort | Hlong].
  - rewrite (handleStopRecording_short _ Hshort). simpl immediate.
    simpl settle. exec. tauto.
  - rewrite (settle_handleStopRecording_long _ svc Hlong).
    destruct (handleStopRecording_long _ Hlong) as (k & -> & _).
    simpl immediate.
    destruct (generateDreamAnalysis svc _); exec; tauto.
Qed.

(** ** Every reachable configuration *)

Lemma recordingConfig_reachable : reachable true recordingConfig.
Proof.
  exact (reachable_turn true _ _ (reachable_initial true)
           (turn_intent (mkConfig (initialWorld true) []) StartRecording
              eq_refl)).
Qed.

Lemma interpreted_reachable :
  reachable true (mkConfig Scenario.interpreted []).
Proof.
  assert (Hrecorded : reachable true (mkConfig (Scenario.recorded Scenario.flying) [])).
  { exact (reachable_turn true _ _ recordingConfig_reachable
             (turn_recognized recordingConfig
                (mkEvent 0 [mkResult Scenario.flying true]))). }
  assert (Hlen : 10 <= length (trim (finalTranscriptRef
                                       (app (Scenario.recorded Scenario.flying)))))
    by (vm_compute; lia).
  destruct (handleStopRecording_long _ Hlen) as (k & Hstop & _).
  assert (Hstopped :
            reachable true
              (suspend (handleStopRecording (Scenario.recorded Scenario.flying)) [])).
  { assert (Hoffered :
              offered (app (Scenario.recorded Scenario.flying)) StopRecording
              = true) by (vm_compute; reflexivity).
    pose proof (reachable_turn true _ _ Hrecorded
                  (turn_intent (mkConfig (Scenario.recorded Scenario.flying) [])
                     StopRecording Hoffered)) as Hnext.
    cbn [handle world pending] in Hnext. exact Hnext. }
  unfold Scenario.interpreted. rewrite Hstop in *.
  cbn [suspend settle] in *.
  exact (reachable_turn true _ _ Hstopped
           (turn_analysis_settled _ [] k []
              (generateDreamAnalysis Scenario.servicesUp
                 (trim (finalTranscriptRef
                          (app (Scenario.recorded Scenario.flying))))))).
Qed.

Lemma interpreted_to_chatting : turn interpretedConfig chattingConfig.
Proof.
  assert (Hoffered :
            offered (app (world interpretedConfig))
              (Send (lit " Why purple? ")) = true)
    by (vm_compute; reflexivity).
  exact (turn_intent interpretedConfig (Send (lit " Why purple? ")) Hoffered).
Qed.

Lemma chattingConfig_reachable : reachable true chattingConfig.
Proof.
  exact (reachable_turn true _ _ interpreted_reachable
           interpreted_to_chatting).
Qed.

(** X14.  The view is never empty and never an error without a message.
    In every reachable configuration the state is [COMPLETE] exactly
    when a [DreamData] is stored and [ERROR] exactly when an error
    message is set, so [renderContent] never returns nothing and the
    error view always has a message to show. *)
Theorem view_is_never_empty :
  forall (supported : bool) (c : Config),
    reachable supported c ->
    let a := app (world c) in
    (dreamState a = COMPLETE <-> dreamData a <> None)
    /\ (dreamState a = ERROR <-> error a <> None)
    /\ renderContent a <> Nothing
    /\ renderContent a <> ErrorView None.
Proof.
  intros supported c H a. subst a.
  destruct (reachable_maintained _ _ H) as [Hdata _ Herror _ _ _ _ _ _ _ _ _].
  unfold observe in *. fields.
  split; [exact Hdata |]. split; [exact Herror |].
  unfold renderContent.
  destruct (dreamState (app (world c))) eqn:Hs; try (split; discriminate).
  - split; [| destruct (dreamData (app (world c))); discriminate].
    destruct (dreamData (app (world c))); [discriminate |].
    exfalso. now apply (proj1 Hdata).
  - split; [discriminate |].
    intros E. inversion E as [E']. now apply (proj1 Herror).
Qed.

Lemma view_is_never_empty_witness :
  reachable true chattingConfig
  /\ renderContent (app (world chattingConfig)) <> Nothing.
Proof.
  split; [exact chattingConfig_reachable |].
  exact (proj1 (proj2 (proj2 (view_is_never_empty true chattingConfig
                                chattingConfig_reachable)))).
Defined.



(** X16.  At most one chat call is in flight, and the loading flag is
    set exactly while one is.  This rests on [DreamDisplay] disabling
    its controls while the flag is set; it holds across resets, which
    neither clear the flag nor cancel the call. *)
Theorem chat_single_flight :
  forall (supported : bool) (c : Config),
    reachable supported c ->
    chatsPending (pending c) <= 1
    /\ (isChatLoading (app (world c)) = true
        <-> chatsPending (pending c) = 1).
Proof.
  intros supported c H.
  destruct (reachable_maintained _ _ H) as [_ _ _ _ _ Hone Hiff _ _ _ _ _].
  now split.
Qed.

Lemma chat_single_flight_witness :
  reachable true chattingConfig
  /\ isChatLoading (app (world chattingConfig)) = true
  /\ chatsPending (pending chattingConfig) = 1.
Proof.
  split; [exact chattingConfig_reachable |].
  split; [reflexivity |].
  exact (proj1 (proj2 (chat_single_flight true chattingConfig
                         chattingConfig_reachable)) eq_refl).
Defined.

Lemma chatsPending_witness :
  forall ps, chatsPending ps = 1 -> exists k, In (PendingChat k) ps.
Proof.
  induction ps as [| [k | k] ps IH]; simpl; intros H; try discriminate.
  - destruct (IH H) as (k' & Hk'). eauto.
  - eauto.
Qed.

(** X17.  The chat history is always made of complete exchanges.  When
    no chat call is loading it is a sequence of user turns, each with a
    text that is not empty and has no white space at either end, each
    answered by one model turn.  While a call is loading it is such a
    sequence followed by the one unanswered user turn, or it is empty
    because a reset came in between. *)
Theorem history_is_conversation :
  forall (supported : bool) (c : Config),
    reachable supported c ->
    let a := app (world c) in
    (isChatLoading a = false -> conversation (chatHistory a))
    /\ (isChatLoading a = true ->
        chatHistory a = []
        \/ exists h message,
             conversation h /\ sendable message
             /\ chatHistory a = h ++ [ {| role := user; text := message |} ]).
Proof.
  intros supported c H a. subst a.
  destruct (reachable_maintained _ _ H)
    as [_ _ _ _ _ _ Hiff Hconv Hps _ _ _].
  unfold observe in *. fields. split; [exact Hconv |].
  intros Hloading. apply Hiff in Hloading.
  destruct (chatsPending_witness _ Hloading) as (k & Hk).
  rewrite Forall_forall in Hps. specialize (Hps _ Hk). simpl in Hps.
  destruct Hps as (h & m & Hh & Hm & [Hnow | Hnow] & _); fields.
  - right. now exists h, m.
  - now left.
Qed.

Lemma history_is_conversation_witness :
  reachable true chattingConfig
  /\ chatHistory (app (world chattingConfig))
     = [ {| role := user; text := lit "Why purple?" |} ]
  /\ (isChatLoading (app (world chattingConfig)) = true ->
      chatHistory (app (world chattingConfig)) = []
      \/ exists h message,
           conversation h /\ sendable message
           /\ chatHistory (app (world chattingConfig))
              = h ++ [ {| role := user; text := message |} ]).
Proof.
  split; [exact chattingConfig_reachable |]. split; [reflexivity |].
  exact (proj2 (history_is_conversation true chattingConfig
                  chattingConfig_reachable)).
Defined.

(** X18.  Calls on the engine alternate.  The engine is listening
    exactly in [RECORDING], with the result handler of [App] installed;
    so [recognition.start()] is only ever called on an engine that is
    not listening and [recognition.stop()] only on one that is. *)
Theorem engine_listens_iff_recording :
  forall (supported : bool) (c : Config),
    reachable supported c ->
    (dreamState (app (world c)) = RECORDING
     <-> exists r, recognition (world c) = Some r /\ listening r = true)
    /\ (dreamState (app (world c)) = RECORDING -> armed (world c))
    /\ (offered (app (world c)) StartRecording = true ->
        forall r, recognition (world c) = Some r -> listening r = false)
    /\ (offered (app (world c)) StopRecording = true ->
        exists r, recognition (world c) = Some r /\ listening r = true).
Proof.
  intros supported c H.
  destruct (reachable_maintained _ _ H)
    as [_ _ _ _ _ _ _ _ _ Hlisten Harmed _].
  unfold observe, engineListening in *. fields.
  split; [exact Hlisten |]. split; [| split].
  - intros Hs. apply Hlisten in Hs. destruct Hs as (r & Hr & Hl).
    exists r. split; [exact Hr | now apply Harmed].
  - unfold offered. intros Hoff r Hr.
    destruct (listening r) eqn:Hl; [| reflexivity].
    assert (Hs : dreamState (app (world c)) = RECORDING)
      by (apply Hlisten; eauto).
    rewrite Hs in Hoff. discriminate.
  - unfold offered. intros Hoff. apply Hlisten.
    destruct (dreamState (app (world c))); (reflexivity || discriminate).
Qed.

Lemma engine_listens_iff_recording_witness :
  reachable true recordingConfig
  /\ dreamState (app (world recordingConfig)) = RECORDING
  /\ armed (world recordingConfig).
Proof.
  split; [exact recordingConfig_reachable |]. split; [reflexivity |].
  exact (proj1 (proj2 (engine_listens_iff_recording true recordingConfig
                         recordingConfig_reachable)) eq_refl).
Defined.

(** X19.  The analysis service only ever receives validated input:
    every request in the trace of a reachable configuration, and the
    transcript of every stored [DreamData], has at least 10 code units
    and no white space at either end. *)
Theorem requests_are_validated :
  forall (supported : bool) (c : Config),
    reachable supported c ->
    Forall requestOk (analysisCalls (trace (world c)))
    /\ forall data,
         dreamData (app (world c)) = Some data ->
         requestOk (Types.transcript data).
Proof.
  intros supported c H.
  destruct (reachable_maintained _ _ H)
    as [_ Hdata _ _ _ _ _ _ _ _ _ Hcalls].
  now split.
Qed.

Lemma requests_are_validated_witness :
  reachable true chattingConfig
  /\ analysisCalls (trace (world chattingConfig)) = [Scenario.flying]
  /\ Forall requestOk (analysisCalls (trace (world chattingConfig))).
Proof.
  split; [exact chattingConfig_reachable |]. split; [reflexivity |].
  exact (proj1 (requests_are_validated true chattingConfig
                  chattingConfig_reachable)).
Defined.

(** ** Every turn of the event loop *)

Lemma turn_effect :
  forall c c',
    maintained c -> turn c c' ->
    (dreamData (app (world c')) = dreamData (app (world c))
     \/ dreamData (app (world c)) = None
     \/ (dreamData (app (world c')) = None
         /\ dreamState (app (world c')) = IDLE))
    /\ ((exists added,
           chatHistory (app (world c'))
           = chatHistory (app (world c)) ++ added)
        \/ chatHistory (app (world c')) = []).
Proof.
  intros c c' M Hturn. unfold maintained in M.
  assert (Hsame : forall w w' : World,
             observe w' = observe w ->
             (dreamData (app w') = dreamData (app w)
              \/ dreamData (app w) = None
              \/ (dreamData (app w') = None /\ dreamState (app w') = IDLE))
             /\ ((exists added,
                    chatHistory (app w') = chatHistory (app w) ++ added)
                 \/ chatHistory (app w') = [])).
  { intros w w' E.
    pose proof (f_equal oData E) as Ed. pose proof (f_equal oHistory E) as Eh.
    cbn [observe oData oHistory] in Ed, Eh. split; [now left |].
    left. exists []. now rewrite app_nil_r. }
  destruct Hturn as [[w ps] i Hoffered | [w ps] event
                     | w ps1 k ps2 settled | w ps1 k ps2 settled];
    cbn [world pending] in *.
  - destruct i; cbn [handle].
    + cbn [suspend world].
      pose proof (observe_handleStartRecording w) as E.
      assert (Ed : dreamData (app (handleStartRecording w)) = dreamData (app w))
        by (apply (f_equal oData) in E; destruct (recognition w); exact E).
      assert (Eh : chatHistory (app (handleStartRecording w))
                   = chatHistory (app w))
        by (apply (f_equal oHistory) in E; destruct (recognition w); exact E).
      split; [now left |]. left. exists []. now rewrite app_nil_r.
    + assert (E : dreamData (app (immediate (handleStopRecording w)))
                  = dreamData (app w)
                  /\ chatHistory (app (immediate (handleStopRecording w)))
                     = chatHistory (app w)).
      { destruct (Nat.lt_ge_cases
                    (length (trim (finalTranscriptRef (app w)))) 10)
          as [Hshort | Hlong].
        - destruct (stop_short_observed _ Hshort) as (w' & -> & E).
          simpl immediate.
          split; [exact (f_equal oData E) | exact (f_equal oHistory E)].
        - destruct (stop_long_observed _ Hlong) as (w' & k & -> & E & _).
          simpl immediate.
          split; [exact (f_equal oData E) | exact (f_equal oHistory E)]. }
      destruct E as [Ed Eh].
      destruct (handleStopRecording w); cbn [suspend world immediate] in *;
        (split; [now left |]); left; exists []; now rewrite app_nil_r.
    + cbn [suspend world]. unfold resetState. exec.
      split; [right; right; now split | now right].
    + cbn [suspend world]. unfold resetState. exec.
      split; [right; right; now split | now right].
    + unfold offered in Hoffered.
      destruct (dreamState (app w)); try discriminate.
      destruct (dreamData (app w)) as [data |] eqn:Hdata; [| discriminate].
      destruct (send_observed w data (trim userInput) Hdata)
        as (w' & t & j & h & k & -> & E & _).
      cbn [suspend world].
      pose proof (f_equal oData E) as Ed.
      pose proof (f_equal oHistory E) as Eh.
      cbn [observe oData oHistory] in Ed, Eh. rewrite Ed, Eh, Hdata.
      split; [now left |]. left. eauto.
  - apply Hsame. apply observe_deliver.
  - pose proof (pending_in_flight _ _ M) as Hps.
    apply Forall_app in Hps. destruct Hps as [_ Hps].
    inversion Hps as [| p ps Hk _]; subst. simpl in Hk.
    assert (Hstate : dreamState (app w) = ANALYZING).
    { apply (analysis_iff_analyzing _ _ M).
      pose proof (analysis_single _ _ M) as Hle.
      rewrite analysesPending_app in *. simpl in *. lia. }
    assert (Hnull : dreamData (app w) = None).
    { destruct (dreamData (app w)) eqn:Hd; [| reflexivity].
      assert (dreamState (app w) = COMPLETE).
      { apply (data_iff_complete _ _ M). simpl. rewrite Hd. discriminate. }
      congruence. }
    split; [right; now left |].
    left. exists []. rewrite app_nil_r.
    destruct (Hk settled w) as [(data & _ & E) | E];
      exact (f_equal oHistory E).
  - pose proof (pending_in_flight _ _ M) as Hps.
    apply Forall_app in Hps. destruct Hps as [_ Hps].
    inversion Hps as [| p ps Hk _]; subst. simpl in Hk.
    destruct Hk as (h & m & _ & _ & Hnow & Hk).
    pose proof (f_equal oData (Hk settled w)) as Ed.
    pose proof (f_equal oHistory (Hk settled w)) as Eh.
    cbn [observe oData oHistory] in Ed, Eh, Hnow.
    split; [now left |]. left. rewrite Eh.
    destruct Hnow as [-> | ->].
    + exists [modelTurn settled]. now rewrite <- app_assoc.
    + eexists. reflexivity.
Qed.

(** X20.  A stored [DreamData] is never overwritten.  In any turn taken
    from a reachable configuration in which a [DreamData] is stored,
    the same [DreamData] is stored afterwards, unless the turn was a
    reset, which clears it and returns to [IDLE]. *)
Theorem dream_data_is_write_once :
  forall (supported : bool) (c c' : Config) (data : DreamData),
    reachable supported c ->
    turn c c' ->
    dreamData (app (world c)) = Some data ->
    dreamData (app (world c')) = Some data
    \/ (dreamData (app (world c')) = None
        /\ dreamState (app (world c')) = IDLE).
Proof.
  intros supported c c' data Hreach Hturn Hdata.
  destruct (turn_effect _ _ (reachable_maintained _ _ Hreach) Hturn)
    as [[E | [E | E]] _].
  - left. congruence.
  - congruence.
  - now right.
Qed.

Lemma dream_data_is_write_once_witness :
  let c := interpretedConfig in
  reachable true c
  /\ turn c chattingConfig
  /\ dreamData (app (world chattingConfig)) = dreamData (app (world c)).
Proof.
  intros c.
  assert (Hturn : turn c chattingConfig) by exact interpreted_to_chatting.
  split; [exact interpreted_reachable |]. split; [exact Hturn |].
  destruct (dream_data_is_write_once true c chattingConfig _
              interpreted_reachable Hturn eq_refl) as [E | [E _]].
  - rewrite E. reflexivity.
  - discriminate E.
Defined.

(** X21.  The chat history is append-only between resets.  In any turn
    taken from a reachable configuration the history afterwards is the
    history before with something appended, or it is empty. *)
Theorem chat_history_is_append_only :
  forall (supported : bool) (c c' : Config),
    reachable supported c ->
    turn c c' ->
    (exists added,
       chatHistory (app (world c')) = chatHistory (app (world c)) ++ added)
    \/ chatHistory (app (world c')) = [].
Proof.
  intros supported c c' Hreach Hturn.
  exact (proj2 (turn_effect _ _ (reachable_maintained _ _ Hreach) Hturn)).
Qed.

Lemma chat_history_is_append_only_witness :
  let c := interpretedConfig in
  reachable true c
  /\ turn c chattingConfig
  /\ ((exists added,
         chatHistory (app (world chattingConfig))
         = chatHistory (app (world c)) ++ added)
      \/ chatHistory (app (world chattingConfig)) = []).
Proof.
  intros c.
  assert (Hturn : turn c chattingConfig) by exact interpreted_to_chatting.
  split; [exact interpreted_reachable |]. split; [exact Hturn |].
  exact (chat_history_is_append_only true c chattingConfig
           interpreted_reachable Hturn).
Defined.

Lemma unsupported_never_records_witness :
  let c := suspend (handle StartRecording (initialWorld false)) [] in
  reachable false c
  /\ dreamState (app (world c)) = ERROR
  /\ recognition (world c) = None
  /\ pending c = [].
Proof.
  intros c.
  assert (H : reachable false c).
  { exact (reachable_turn false _ _ (reachable_initial false)
             (turn_intent (mkConfig (initialWorld false) []) StartRecording
                eq_refl)). }
  split; [exact H |]. split; [reflexivity |].
  destruct (unsupported_never_records c H) as (Hrec & Hpending & _).
  split; [exact Hrec | exact Hpending].
Defined.

(** The send intent of the event loop is what [DreamDisplay] lets
    through in the result view: the button, or equally the Enter key,
    passes a message on, and that message is what [handleSendMessage]
    is called with. *)
Lemma send_intent_is_clickSend :
  forall (a : AppState) (userInput : jsstring),
    offered a (Send userInput) = true
    <-> dreamState a = COMPLETE /\ dreamData a <> None
        /\ clickSend (isChatLoading a) userInput = (Some (trim userInput), [])
        /\ handleKeyPress (lit "Enter") (isChatLoading a) userInput
           = (Some (trim userInput), []).
Proof.
  intros a u. unfold offered, clickSend, handleKeyPress, handleSend. simpl.
  destruct (dreamState a); try (split; [discriminate | intros (E & _); discriminate]).
  destruct (dreamData a); simpl;
    [| split; [discriminate | intros (_ & E & _); now contradiction E]].
  destruct (isChatLoading a); simpl;
    [split; [discriminate | intros (_ & _ & E & _); discriminate] |].
  destruct (trim u); simpl.
  - split; [discriminate | intros (_ & _ & E & _); discriminate].
  - split; [intros _; repeat split; discriminate | reflexivity].
Qed.
